(** * func_analyzer.utils: annotation cleaning and docstring parameters

    A shallow embedding of [src/func_analyzer/utils.py]:
    - the [AnnotationCleaner] visitor and [clean_annotation_ast],
    - the ordered substitution pipeline [clean_annotation_pattern],
    - [clean_annotation_string] with its optional colour decoration,
    - [parse_docstring_params] and [_parse_docstring_manual].

    Python strings are [string] (ASCII text), the dictionary returned by
    the docstring functions is a [gmap string string], and an exception is
    a value of [exc] carried by the [result] type.  The standard-library
    collaborators ([re], [ast.parse], [repr], [str.strip]) are modelled
    first, then come the functions of the module, the language of type
    expressions the module is meant for, and the properties. *)

From Stdlib Require Import String Ascii List Bool Arith Lia NArith DecimalString.
From stdpp Require Import base gmap strings list.
Import ListNotations.

Local Open Scope string_scope.
Local Open Scope nat_scope.

(** ** Exceptions *)

Inductive exc : Type :=
  | SyntaxError
  | ValueError
  | OtherException.

Inductive result (A : Type) : Type :=
  | Ok (a : A)
  | Raise (e : exc).
Arguments Ok {A} a.
Arguments Raise {A} e.

Definition bind {A B : Type} (m : result A) (f : A -> result B) : result B :=
  match m with
  | Ok a => f a
  | Raise e => Raise e
  end.

(** [try_except body handles handler]: run [body]; an exception for which
    [handles] answers [true] is passed to [handler], any other propagates. *)
Definition try_except {A : Type} (body : result A) (handles : exc -> bool)
    (handler : exc -> result A) : result A :=
  match body with
  | Ok a => Ok a
  | Raise e => if handles e then handler e else Raise e
  end.

(** ** Character classes of [re] on ASCII text *)

Definition code (c : ascii) : nat := nat_of_ascii c.

Definition in_range (lo hi c : ascii) : bool :=
  (code lo <=? code c) && (code c <=? code hi).

Definition is_upper (c : ascii) : bool := in_range "A" "Z" c.
Definition is_lower (c : ascii) : bool := in_range "a" "z" c.
Definition is_digit (c : ascii) : bool := in_range "0" "9" c.
Definition is_underscore (c : ascii) : bool := code c =? 95.

(** [[a-zA-Z_]] *)
Definition ident_start (c : ascii) : bool :=
  is_lower c || is_upper c || is_underscore c.

(** [[a-zA-Z0-9_]], which is also [\w] on ASCII text *)
Definition ident_char (c : ascii) : bool :=
  is_lower c || is_upper c || is_digit c || is_underscore c.

Definition is_word : ascii -> bool := ident_char.

(** [\s], and the characters removed by [str.strip()]: tab, newline,
    vertical tab, form feed, carriage return, the four separators
    0x1c-0x1f and the space. *)
Definition is_space (c : ascii) : bool :=
  ((9 <=? code c) && (code c <=? 13)) ||
  ((28 <=? code c) && (code c <=? 31)) ||
  (code c =? 32).

Definition newline : ascii := ascii_of_nat 10.
Definition is_newline (c : ascii) : bool := code c =? 10.
Definition not_newline (c : ascii) : bool := negb (is_newline c).

(** ** A backtracking matcher for the [re] patterns of the module *)

Inductive regex : Type :=
  | Eps
  | Lit (c : ascii)
  | Class (p : ascii -> bool)
  | Dot
  | Seq (r1 r2 : regex)
  | Alt (r1 r2 : regex)
  | Star (greedy : bool) (r : regex)
  | Group (n : nat) (r : regex)
  | Lookahead (r : regex)
  | Dollar
  | EndZ.

Record flags : Type := { MULTILINE : bool; DOTALL : bool }.

Definition no_flags : flags := {| MULTILINE := false; DOTALL := false |}.

(** [r+] and [r+?] *)
Definition Plus (greedy : bool) (r : regex) : regex := Seq r (Star greedy r).

(** a literal piece of pattern text *)
Fixpoint Str (s : string) : regex :=
  match s with
  | EmptyString => Eps
  | String c s' => Seq (Lit c) (Str s')
  end.

(** the pieces of a pattern, one after the other *)
Definition Cat (rs : list regex) : regex := fold_right Seq Eps rs.

Definition captures : Type := list (nat * string).

Fixpoint group (n : nat) (g : captures) : string :=
  match g with
  | [] => ""
  | (m, s) :: g' => if n =? m then s else group n g'
  end.

Fixpoint take_string (n : nat) (s : string) : string :=
  match n, s with
  | S n', String c s' => String c (take_string n' s')
  | _, _ => ""
  end.

(** the text consumed between the input [s] and its suffix [s'] *)
Definition consumed (s s' : string) : string :=
  take_string (String.length s - String.length s') s.

Definition at_dollar (fl : flags) (s : string) : bool :=
  match s with
  | EmptyString => true
  | String c s' =>
      is_newline c && (MULTILINE fl || match s' with EmptyString => true | _ => false end)
  end.

Definition cont : Type := string -> captures -> option (string * captures).

(** [rmatch fl r k s g] matches [r] at the start of [s] and hands the
    rest of the input to the continuation [k]; alternatives are tried in
    the priority order of a backtracking engine (left alternative first,
    greedy repetition longest first, lazy repetition shortest first). *)
Fixpoint rmatch (fl : flags) (r : regex) (k : cont) (s : string) (g : captures)
    {struct r} : option (string * captures) :=
  match r with
  | Eps => k s g
  | Lit c =>
      match s with
      | String c' s' => if Ascii.eqb c c' then k s' g else None
      | EmptyString => None
      end
  | Class p =>
      match s with
      | String c' s' => if p c' then k s' g else None
      | EmptyString => None
      end
  | Dot =>
      match s with
      | String c' s' => if DOTALL fl || not_newline c' then k s' g else None
      | EmptyString => None
      end
  | Seq r1 r2 => rmatch fl r1 (rmatch fl r2 k) s g
  | Alt r1 r2 =>
      match rmatch fl r1 k s g with
      | Some x => Some x
      | None => rmatch fl r2 k s g
      end
  | Star greedy r' =>
      (fix loop (n : nat) (s : string) (g : captures) {struct n} :=
         match n with
         | O => k s g
         | S n' =>
             let again :=
               rmatch fl r'
                 (fun s' g' =>
                    if String.length s' <? String.length s
                    then loop n' s' g' else None) s g in
             if greedy
             then match again with Some x => Some x | None => k s g end
             else match k s g with Some x => Some x | None => again end
         end) (String.length s) s g
  | Group n r' =>
      rmatch fl r' (fun s' g' => k s' ((n, consumed s s') :: g')) s g
  | Lookahead r' =>
      match rmatch fl r' (fun s' g' => Some (s', g')) s g with
      | Some (_, g') => k s g'
      | None => None
      end
  | Dollar => if at_dollar fl s then k s g else None
  | EndZ => match s with EmptyString => k s g | _ => None end
  end.

(** A match at the start of [s]: its length and its groups. *)
Definition match_here (fl : flags) (r : regex) (s : string)
    : option (nat * captures) :=
  match rmatch fl r (fun s' g => Some (s', g)) s [] with
  | Some (s', g) => Some (String.length s - String.length s', g)
  | None => None
  end.

(** Replacement templates: literal text and group references [\n]. *)
Inductive template_item : Type :=
  | TText (s : string)
  | TGroup (n : nat).

Definition expand (t : list template_item) (g : captures) : string :=
  String.concat ""
    (map (fun i => match i with TText s => s | TGroup n => group n g end) t).

(** [re.sub]: non-overlapping matches, leftmost first.  [skip] counts the
    characters still covered by the match found last. *)
Fixpoint sub_from (fl : flags) (r : regex) (repl : list template_item)
    (skip : nat) (s : string) {struct s} : string :=
  match skip with
  | S k =>
      match s with
      | EmptyString => ""
      | String _ s' => sub_from fl r repl k s'
      end
  | O =>
      match match_here fl r s with
      | Some (n, g) =>
          expand repl g ++
          match s with
          | EmptyString => ""
          | String c s' =>
              match n with
              | O => String c (sub_from fl r repl 0 s')
              | S n' => sub_from fl r repl n' s'
              end
          end
      | None =>
          match s with
          | EmptyString => ""
          | String c s' => String c (sub_from fl r repl 0 s')
          end
      end
  end.

Definition re_sub (r : regex) (repl : list template_item) (s : string) : string :=
  sub_from no_flags r repl 0 s.

(** [re.finditer]: the groups of every non-overlapping match, in order. *)
Fixpoint finditer_from (fl : flags) (r : regex) (skip : nat) (s : string)
    {struct s} : list captures :=
  match skip with
  | S k =>
      match s with
      | EmptyString => []
      | String _ s' => finditer_from fl r k s'
      end
  | O =>
      match match_here fl r s with
      | Some (n, g) =>
          g :: match s with
               | EmptyString => []
               | String _ s' => finditer_from fl r (pred n) s'
               end
      | None =>
          match s with
          | EmptyString => []
          | String _ s' => finditer_from fl r 0 s'
          end
      end
  end.

Definition re_finditer (fl : flags) (r : regex) (s : string) : list captures :=
  finditer_from fl r 0 s.

(** [re.search]: the groups of the leftmost match, if any. *)
Fixpoint re_search (fl : flags) (r : regex) (s : string) : option captures :=
  match match_here fl r s with
  | Some (_, g) => Some g
  | None =>
      match s with
      | EmptyString => None
      | String _ s' => re_search fl r s'
      end
  end.

(** [str.strip()] *)
Fixpoint lstrip (s : string) : string :=
  match s with
  | String c s' => if is_space c then lstrip s' else s
  | EmptyString => ""
  end.

Fixpoint rstrip (s : string) : string :=
  match s with
  | String c s' =>
      match rstrip s' with
      | EmptyString => if is_space c then "" else String c ""
      | t => String c t
      end
  | EmptyString => ""
  end.

Definition strip (s : string) : string := rstrip (lstrip s).

(** ** The syntax trees of [ast] (Python 3.9 and later)

    The node classes an annotation can parse to.  Operators and
    expression contexts are nodes without fields; the visitor never
    records anything for them, so contexts are left out. *)

Inductive constant : Type :=
  | CNone
  | CTrue
  | CFalse
  | CEllipsis
  | CInt (n : N)
  | CStr (s : string).

Inductive operator : Type :=
  | Add | Sub | Mult | MatMult | Div | Mod | BitOr | BitXor | BitAnd.

Inductive unaryop : Type :=
  | Invert | UAdd | USub.

#[warnings="-register-all"]
Inductive expr : Type :=
  | Name (id : string)
  | Attribute (value : expr) (attr : string)
  | Subscript (value : expr) (slice : expr)
  | Constant (value : constant)
  | BinOp (left : expr) (op : operator) (right : expr)
  | UnaryOp (op : unaryop) (operand : expr)
  | Call (func : expr) (args : list expr)
  | Tuple (elts : list expr)
  | List (elts : list expr).

(** ** [repr] of a constant *)

Definition hex_digit (n : nat) : ascii :=
  if n <? 10 then ascii_of_nat (48 + n) else ascii_of_nat (87 + n).

Definition backslash : ascii := ascii_of_nat 92.
Definition squote : ascii := ascii_of_nat 39.
Definition dquote : ascii := ascii_of_nat 34.

Fixpoint contains (c : ascii) (s : string) : bool :=
  match s with
  | EmptyString => false
  | String c' s' => Ascii.eqb c c' || contains c s'
  end.

Fixpoint repr_chars (quote : ascii) (s : string) : string :=
  match s with
  | EmptyString => ""
  | String c s' =>
      (if Ascii.eqb c backslash || Ascii.eqb c quote
       then String backslash (String c "")
       else if code c =? 10 then String backslash "n"
       else if code c =? 13 then String backslash "r"
       else if code c =? 9 then String backslash "t"
       else if (code c <? 32) || (code c =? 127)
       then String backslash
              (String "x" (String (hex_digit (code c / 16))
                             (String (hex_digit (code c mod 16)) "")))
       else String c "")
      ++ repr_chars quote s'
  end.

(** [repr] of a [str]: single quotes, unless the text has a single quote
    and no double quote. *)
Definition repr_str (s : string) : string :=
  let quote := if contains squote s && negb (contains dquote s)
               then dquote else squote in
  String quote (repr_chars quote s ++ String quote "").

Definition repr (v : constant) : string :=
  match v with
  | CNone => "None"
  | CTrue => "True"
  | CFalse => "False"
  | CEllipsis => "Ellipsis"
  | CInt n => NilZero.string_of_uint (N.to_uint n)
  | CStr s => repr_str s
  end.

(** ** A model of [ast.parse(source, mode='eval')]

    The model covers the expression fragment that annotations are written
    in: names, attribute access, subscripts, calls with positional
    arguments, tuples, list displays, parentheses, string and decimal
    integer literals, [None], [True], [False], [...], the unary operators
    [+ - ~] and the left-associative binary operators [| ^ & + - * / % @].
    Everything else (comparisons, boolean operators, conditional and
    lambda expressions, comprehensions, slices, keyword and starred
    arguments, [**], [//], shifts, floats, string prefixes, escapes other
    than the simple ones, comments, line continuations, non-ASCII text) is
    outside the fragment and reported as a syntax error by the model.  A
    name directly followed by a quote is rejected as well: it is either a
    string prefix, outside the fragment, or two adjacent atoms, a syntax
    error.  The statements below use the model on inputs of the fragment,
    and on inputs that CPython rejects too. *)

Inductive token : Type :=
  | NAME (id : string)
  | NUMBER (n : N)
  | STRING (s : string)
  | LPAR | RPAR | LSQB | RSQB | COMMA | DOT | ELLIPSIS
  | VBAR | CIRCUMFLEX | AMPER | PLUS | MINUS | STAR | SLASH | PERCENT | AT
  | TILDE.

Definition is_blank (c : ascii) : bool := (code c =? 32) || (code c =? 9).
Definition is_quote (c : ascii) : bool := (code c =? 39) || (code c =? 34).
Definition is_dot (c : ascii) : bool := code c =? 46.

(** the longest prefix of [s] whose characters satisfy [p] *)
Fixpoint take_while (p : ascii -> bool) (s : string) : string :=
  match s with
  | String c s' => if p c then String c (take_while p s') else ""
  | EmptyString => ""
  end.

Fixpoint drop_string (n : nat) (s : string) : string :=
  match n, s with
  | S n', String _ s' => drop_string n' s'
  | _, _ => s
  end.

Fixpoint all_chars (p : ascii -> bool) (s : string) : bool :=
  match s with
  | String c s' => p c && all_chars p s'
  | EmptyString => true
  end.

Definition starts_with (p : ascii -> bool) (s : string) : bool :=
  match s with
  | String c _ => p c
  | EmptyString => false
  end.

Definition punctuation (c : ascii) : option token :=
  match code c with
  | 40 => Some LPAR | 41 => Some RPAR
  | 91 => Some LSQB | 93 => Some RSQB
  | 44 => Some COMMA
  | 124 => Some VBAR | 94 => Some CIRCUMFLEX | 38 => Some AMPER
  | 43 => Some PLUS | 45 => Some MINUS
  | 42 => Some STAR | 47 => Some SLASH | 37 => Some PERCENT | 64 => Some AT
  | 126 => Some TILDE
  | _ => None
  end.

Fixpoint N_of_digits (acc : N) (s : string) : N :=
  match s with
  | String c s' => N_of_digits (10 * acc + N.of_nat (code c - 48))%N s'
  | EmptyString => acc
  end.

(** A decimal integer literal: no leading zero unless it is all zeros. *)
Definition number_token (digits : string) : option token :=
  if starts_with (fun c => code c =? 48) digits && negb (all_chars (fun c => code c =? 48) digits)
  then None
  else Some (NUMBER (N_of_digits 0 digits)).

(** The body of a string literal opened by [quote]: the decoded text and
    the number of source characters up to and including the closing quote. *)
Fixpoint string_body (quote : ascii) (s : string) : option (string * nat) :=
  match s with
  | EmptyString => None
  | String c s' =>
      if Ascii.eqb c quote then Some ("", 1)
      else if is_newline c then None
      else if Ascii.eqb c backslash then
        match s' with
        | String e s'' =>
            let keep (d : string) :=
              match string_body quote s'' with
              | Some (t, n) => Some (d ++ t, S (S n))
              | None => None
              end in
            if Ascii.eqb e backslash || is_quote e then keep (String e "")
            else if Ascii.eqb e "n" then keep (String newline "")
            else if Ascii.eqb e "t" then keep (String (ascii_of_nat 9) "")
            else if Ascii.eqb e "r" then keep (String (ascii_of_nat 13) "")
            else None
        | EmptyString => None
        end
      else
        match string_body quote s' with
        | Some (t, n) => Some (String c t, S n)
        | None => None
        end
  end.

Definition cons_token (t : token) (r : option (list token)) : option (list token) :=
  match r with
  | Some ts => Some (t :: ts)
  | None => None
  end.

(** The tokenizer.  [skip] counts the characters that still belong to the
    token produced last; [None] is a lexical error. *)
Fixpoint lex (skip : nat) (s : string) {struct s} : option (list token) :=
  match s with
  | EmptyString => Some []
  | String c s' =>
      match skip with
      | S k => lex k s'
      | O =>
          if is_blank c then lex 0 s'
          else if is_newline c then
            if all_chars is_space s' then Some [] else None
          else if ident_start c then
            let id := take_while ident_char s' in
            if starts_with is_quote (drop_string (String.length id) s') then None
            else cons_token (NAME (String c id)) (lex (String.length id) s')
          else if is_digit c then
            let ds := take_while is_digit s' in
            let rest := drop_string (String.length ds) s' in
            if starts_with ident_char rest || starts_with is_dot rest then None
            else match number_token (String c ds) with
                 | Some t => cons_token t (lex (String.length ds) s')
                 | None => None
                 end
          else if is_quote c then
            if starts_with (Ascii.eqb c) s' && starts_with (Ascii.eqb c) (drop_string 1 s')
            then None
            else match string_body c s' with
                 | Some (t, n) => cons_token (STRING t) (lex n s')
                 | None => None
                 end
          else if is_dot c then
            if starts_with is_dot s' then
              if starts_with is_dot (drop_string 1 s')
              then cons_token ELLIPSIS (lex 2 s') else None
            else if starts_with is_digit s' then None
            else cons_token DOT (lex 0 s')
          else
            match punctuation c with
            | Some t => cons_token t (lex 0 s')
            | None => None
            end
      end
  end.

(** Leading blanks are an [IndentationError]. *)
Definition tokenize (s : string) : option (list token) :=
  if starts_with is_blank s then None else lex 0 s.

(** Outcome of a parsing function: a value, a syntax error, or the
    recursion bound was reached. *)
Inductive presult (A : Type) : Type :=
  | Parsed (a : A)
  | Invalid
  | OutOfFuel.
Arguments Parsed {A} a.
Arguments Invalid {A}.
Arguments OutOfFuel {A}.

Definition pbind {A B : Type} (m : presult A) (f : A -> presult B) : presult B :=
  match m with
  | Parsed a => f a
  | Invalid => Invalid
  | OutOfFuel => OutOfFuel
  end.

#[global] Instance presult_bind : MBind presult :=
  fun A B f m => pbind m f.

Definition keywords : list string :=
  [ "False"; "None"; "True"; "and"; "as"; "assert"; "async"; "await";
    "break"; "class"; "continue"; "def"; "del"; "elif"; "else"; "except";
    "finally"; "for"; "from"; "global"; "if"; "import"; "in"; "is";
    "lambda"; "nonlocal"; "not"; "or"; "pass"; "raise"; "return"; "try";
    "while"; "with"; "yield" ].

Definition is_keyword (id : string) : bool := existsb (String.eqb id) keywords.

(** A name in atom position: one of the three constant keywords, a
    plain identifier, or a keyword that cannot start an expression of the
    fragment. *)
Definition atom_of_name (id : string) : presult expr :=
  if String.eqb id "None" then Parsed (Constant CNone)
  else if String.eqb id "True" then Parsed (Constant CTrue)
  else if String.eqb id "False" then Parsed (Constant CFalse)
  else if is_keyword id then Invalid
  else Parsed (Name id).

(** Adjacent string literals are concatenated. *)
Fixpoint strings_rest (acc : string) (ts : list token) : string * list token :=
  match ts with
  | STRING s :: ts' => strings_rest (acc ++ s) ts'
  | _ => (acc, ts)
  end.

(** Binding strength and node of a binary operator token. *)
Definition binop_of (t : token) : option (nat * operator) :=
  match t with
  | VBAR => Some (1, BitOr)
  | CIRCUMFLEX => Some (2, BitXor)
  | AMPER => Some (3, BitAnd)
  | PLUS => Some (5, Add)
  | MINUS => Some (5, Sub)
  | STAR => Some (6, Mult)
  | SLASH => Some (6, Div)
  | PERCENT => Some (6, Mod)
  | AT => Some (6, MatMult)
  | _ => None
  end.

(** What a bracketed, comma separated list denotes. *)
Definition group_or_tuple (es : list expr) (comma : bool) : expr :=
  match es, comma with
  | [e], false => e
  | _, _ => Tuple es
  end.

Definition closes (ts : list token) : bool :=
  match ts with
  | [] | RPAR :: _ | RSQB :: _ => true
  | _ => false
  end.

(** Recursive descent; every call passes the predecessor of its bound.
    - [parse_exprs]: a possibly empty list [e, e, ...] with an optional
      trailing comma, up to a closing bracket or the end of input; the
      boolean tells whether a comma was seen;
    - [parse_expr minp]: binary operators of strength at least [minp];
    - [parse_factor]: unary operators, then an atom with its trailers;
    - [parse_trailers]: [.name], [[...]] and [(...)] after a primary;
    - [parse_binops]: the operator/operand pairs after a left operand. *)
Fixpoint parse_exprs (n : nat) (ts : list token) {struct n}
    : presult (list expr * bool * list token) :=
  match n with
  | O => OutOfFuel
  | S n' =>
      if closes ts then Parsed ([], false, ts)
      else
        '(e, ts1) ← parse_expr n' 1 ts;
        match ts1 with
        | COMMA :: ts2 =>
            '(es, _, ts3) ← parse_exprs n' ts2;
            Parsed (e :: es, true, ts3)
        | _ => Parsed ([e], false, ts1)
        end
  end
with parse_expr (n : nat) (minp : nat) (ts : list token) {struct n}
    : presult (expr * list token) :=
  match n with
  | O => OutOfFuel
  | S n' =>
      '(l, ts1) ← parse_factor n' ts;
      parse_binops n' minp l ts1
  end
with parse_factor (n : nat) (ts : list token) {struct n}
    : presult (expr * list token) :=
  match n with
  | O => OutOfFuel
  | S n' =>
      match ts with
      | PLUS :: ts' =>
          '(e, ts1) ← parse_factor n' ts'; Parsed (UnaryOp UAdd e, ts1)
      | MINUS :: ts' =>
          '(e, ts1) ← parse_factor n' ts'; Parsed (UnaryOp USub e, ts1)
      | TILDE :: ts' =>
          '(e, ts1) ← parse_factor n' ts'; Parsed (UnaryOp Invert e, ts1)
      | _ =>
          '(a, ts1) ← parse_atom n' ts;
          parse_trailers n' a ts1
      end
  end
with parse_atom (n : nat) (ts : list token) {struct n}
    : presult (expr * list token) :=
  match n with
  | O => OutOfFuel
  | S n' =>
      match ts with
      | NAME id :: ts' => e ← atom_of_name id; Parsed (e, ts')
      | NUMBER k :: ts' => Parsed (Constant (CInt k), ts')
      | STRING s :: ts' =>
          let (t, ts1) := strings_rest s ts' in
          Parsed (Constant (CStr t), ts1)
      | ELLIPSIS :: ts' => Parsed (Constant CEllipsis, ts')
      | LPAR :: ts' =>
          '(es, comma, ts1) ← parse_exprs n' ts';
          match ts1 with
          | RPAR :: ts2 => Parsed (group_or_tuple es comma, ts2)
          | _ => Invalid
          end
      | LSQB :: ts' =>
          '(es, _, ts1) ← parse_exprs n' ts';
          match ts1 with
          | RSQB :: ts2 => Parsed (List es, ts2)
          | _ => Invalid
          end
      | _ => Invalid
      end
  end
with parse_trailers (n : nat) (e : expr) (ts : list token) {struct n}
    : presult (expr * list token) :=
  match n with
  | O => OutOfFuel
  | S n' =>
      match ts with
      | DOT :: NAME a :: ts' =>
          if is_keyword a then Invalid
          else parse_trailers n' (Attribute e a) ts'
      | DOT :: _ => Invalid
      | LSQB :: ts' =>
          '(es, comma, ts1) ← parse_exprs n' ts';
          match es, ts1 with
          | _ :: _, RSQB :: ts2 =>
              parse_trailers n' (Subscript e (group_or_tuple es comma)) ts2
          | _, _ => Invalid
          end
      | LPAR :: ts' =>
          '(es, _, ts1) ← parse_exprs n' ts';
          match ts1 with
          | RPAR :: ts2 => parse_trailers n' (Call e es) ts2
          | _ => Invalid
          end
      | _ => Parsed (e, ts)
      end
  end
with parse_binops (n : nat) (minp : nat) (l : expr) (ts : list token) {struct n}
    : presult (expr * list token) :=
  match n with
  | O => OutOfFuel
  | S n' =>
      match ts with
      | t :: ts' =>
          match binop_of t with
          | Some (p, op) =>
              if minp <=? p then
                '(r, ts1) ← parse_expr n' (S p) ts';
                parse_binops n' minp (BinOp l op r) ts1
              else Parsed (l, ts)
          | None => Parsed (l, ts)
          end
      | [] => Parsed (l, ts)
      end
  end.

Definition parse_fuel (ts : list token) : nat := 4 * length ts + 4.

(** [ast.parse(source, mode='eval').body].  The bound [parse_fuel] is
    never reached (lemma [parse_fuel_enough]); the last branch stands for
    the parser's [RecursionError]. *)
Definition py_parse (source : string) : result expr :=
  match tokenize source with
  | None => Raise SyntaxError
  | Some ts =>
      match parse_exprs (parse_fuel ts) ts with
      | Parsed (e :: es, comma, []) => Ok (group_or_tuple (e :: es) comma)
      | Parsed _ => Raise SyntaxError
      | Invalid => Raise SyntaxError
      | OutOfFuel => Raise OtherException
      end
  end.

(** * The module *)

(** ** [clean_annotation_pattern] *)

(** The seven [(pattern, replacement)] pairs, in source order. *)
Definition patterns : list (regex * list template_item) :=
  [ (Str "typing.", []);
    (Str "__main__.", []);
    (Str "builtins.", []);
    (Str "collections.abc.", []);
    (* module.Class -> Class: an identifier, a dot, and as group 1 an
       identifier that starts with a capital *)
    (Cat [Class ident_start; Star true (Class ident_char); Lit ".";
          Group 1 (Cat [Class is_upper; Star true (Class ident_char)])],
     [TGroup 1]);
    (* <class 'str'> -> str: group 1 is one run of word characters *)
    (Cat [Str "<class '"; Group 1 (Plus true (Class is_word)); Str "'>"],
     [TGroup 1]);
    (* <class 'typing.List'> -> typing.List: group 1 is two runs of word
       characters around one dot *)
    (Cat [Str "<class '";
          Group 1 (Cat [Plus true (Class is_word); Lit ".";
                        Plus true (Class is_word)]);
          Str "'>"],
     [TGroup 1]) ].

Definition clean_annotation_pattern (annotation_str : string) : string :=
  fold_left (fun cleaned pr => re_sub (fst pr) (snd pr) cleaned)
    patterns annotation_str.

(** ** [AnnotationCleaner]

    The visitor appends pieces of text to [self.result]; here every method
    takes the list and returns the extended list.  The methods that recurse
    receive [visit] as an argument and are tied together below. *)

Definition visitor : Type := expr -> list string -> list string.

(** [self.result.append(text)] *)
Definition append_to (result : list string) (text : string) : list string :=
  (result ++ [text])%list.

Definition visit_Name (id : string) (result : list string) : list string :=
  append_to result id.

Definition visit_Attribute (attr : string) (result : list string) : list string :=
  append_to result attr.

(** [for i, elt in enumerate(node.slice.elts)] *)
Fixpoint visit_elts (visit : visitor) (i : nat) (elts : list expr)
    (result : list string) : list string :=
  match elts with
  | [] => result
  | elt :: rest =>
      let result := if 0 <? i then append_to result ", " else result in
      visit_elts visit (S i) rest (visit elt result)
  end.

Definition visit_Subscript (visit : visitor) (value slice : expr)
    (result : list string) : list string :=
  let result := visit value result in
  let result := append_to result "[" in
  let result :=
    match slice with
    | Tuple elts => visit_elts visit 0 elts result
    | _ => visit slice result
    end in
  append_to result "]".

Definition visit_Constant (value : constant) (result : list string) : list string :=
  append_to result (repr value).

Definition visit_BinOp (visit : visitor) (left : expr) (op : operator)
    (right : expr) (result : list string) : list string :=
  let result := visit left result in
  let result := match op with BitOr => append_to result " | " | _ => result end in
  visit right result.

(** [NodeVisitor.generic_visit] on a list-valued field *)
Fixpoint visit_each (visit : visitor) (nodes : list expr)
    (result : list string) : list string :=
  match nodes with
  | [] => result
  | node :: rest => visit_each visit rest (visit node result)
  end.

(** [NodeVisitor.visit]: the method named after the node class, or
    [generic_visit], which visits the child nodes field by field. *)
Fixpoint visit (node : expr) (result : list string) {struct node} : list string :=
  match node with
  | Name id => visit_Name id result
  | Attribute _ attr => visit_Attribute attr result
  | Subscript value slice => visit_Subscript visit value slice result
  | Constant value => visit_Constant value result
  | BinOp lhs op rhs => visit_BinOp visit lhs op rhs result
  | UnaryOp _ operand => visit operand result
  | Call func args => visit_each visit args (visit func result)
  | Tuple elts => visit_each visit elts result
  | List elts => visit_each visit elts result
  end.

(** [''.join(cleaner.result)] after [cleaner.visit(tree.body)] *)
Definition render (tree : expr) : string := String.concat "" (visit tree []).

#[global] Instance result_bind : MBind result :=
  fun A B f m => bind m f.

Definition format_annotation_with_color (annotation color : string) : string :=
  "<fg=" ++ color ++ ">(" ++ annotation ++ ")</>".

Inductive DocstringStyle : Type := GOOGLE | NUMPY | SPHINX | AUTO.

(** What the module reads of a [docstring_parser] parameter. *)
Record DocstringParam : Type :=
  { arg_name : string; description : option string }.

(** ** [_parse_docstring_manual] *)

Definition spaces : regex := Star true (Class is_space).

(** [:param\s+(\w+):\s*(.+?)(?=\n\s*:|\n\s*\n|$)] *)
Definition google_pattern : regex :=
  Cat [Str ":param"; Plus true (Class is_space);
       Group 1 (Plus true (Class is_word)); Lit ":"; spaces;
       Group 2 (Plus false Dot);
       Lookahead (Alt (Cat [Lit newline; spaces; Lit ":"])
                 (Alt (Cat [Lit newline; spaces; Lit newline]) Dollar))].

Definition sphinx_pattern : regex := google_pattern.

(** [Parameters\n-+\n(.*?)(?=\n\s*\n|\n\s*[A-Z]|\Z)] *)
Definition numpy_pattern : regex :=
  Cat [Str "Parameters"; Lit newline; Plus true (Lit "-"); Lit newline;
       Group 1 (Star false Dot);
       Lookahead (Alt (Cat [Lit newline; spaces; Lit newline])
                 (Alt (Cat [Lit newline; spaces; Class is_upper]) EndZ))].

(** [(\w+)\s*:\s*[^\n]*\n\s*(.+?)(?=\n\s*\w+\s*:|$)] *)
Definition param_pattern : regex :=
  Cat [Group 1 (Plus true (Class is_word)); spaces; Lit ":"; spaces;
       Star true (Class not_newline); Lit newline; spaces;
       Group 2 (Plus false Dot);
       Lookahead (Alt (Cat [Lit newline; spaces; Plus true (Class is_word);
                            spaces; Lit ":"]) Dollar)].

Definition multiline_dotall : flags := {| MULTILINE := true; DOTALL := true |}.
Definition dotall : flags := {| MULTILINE := false; DOTALL := true |}.

(** [param_descriptions[name] = description] *)
Definition assign (m : captures) (param_descriptions : gmap string string)
    : gmap string string :=
  <[group 1 m := strip (group 2 m)]> param_descriptions.

(** [if name not in param_descriptions: param_descriptions[name] = description] *)
Definition assign_if_absent (m : captures) (param_descriptions : gmap string string)
    : gmap string string :=
  match param_descriptions !! group 1 m with
  | Some _ => param_descriptions
  | None => <[group 1 m := strip (group 2 m)]> param_descriptions
  end.

(** The three loops of [_parse_docstring_manual], each taking the
    dictionary built so far. *)
Definition google_pass (docstring : string) (param_descriptions : gmap string string)
    : gmap string string :=
  fold_left (fun d m => assign m d)
    (re_finditer multiline_dotall google_pattern docstring) param_descriptions.

Definition sphinx_pass (docstring : string) (param_descriptions : gmap string string)
    : gmap string string :=
  fold_left (fun d m => assign_if_absent m d)
    (re_finditer multiline_dotall sphinx_pattern docstring) param_descriptions.

Definition numpy_pass (docstring : string) (param_descriptions : gmap string string)
    : gmap string string :=
  match re_search dotall numpy_pattern docstring with
  | Some numpy_match =>
      let params_section := group 1 numpy_match in
      fold_left (fun d m => assign_if_absent m d)
        (re_finditer dotall param_pattern params_section) param_descriptions
  | None => param_descriptions
  end.

Definition _parse_docstring_manual (docstring : string) : gmap string string :=
  let param_descriptions : gmap string string := ∅ in
  let param_descriptions := google_pass docstring param_descriptions in
  let param_descriptions := sphinx_pass docstring param_descriptions in
  numpy_pass docstring param_descriptions.

(** ** The functions that call the parsers

    [ast_parse] is [ast.parse(_, mode='eval').body] and [parse_docstring]
    is [docstring_parser.parse(_).params]; either may raise. *)

Section Module.

Variable ast_parse : string -> result expr.
Variable parse_docstring : string -> result (list DocstringParam).

Definition clean_annotation_ast (annotation_str : string) : result string :=
  try_except
    (tree ← ast_parse annotation_str;
     Ok (render tree))
    (fun e => match e with SyntaxError | ValueError => true | _ => false end)
    (fun _ => Ok (clean_annotation_pattern annotation_str)).

(** [field_annotation] is already a string, so [str(field_annotation)] is
    the string itself; [color] is [None] or a string, and the empty string
    is false as a condition. *)
Definition clean_annotation_string (field_annotation : string)
    (color : option string) : result string :=
  let annotation_str := field_annotation in
  clean_annotation ←
    try_except (clean_annotation_ast annotation_str)
      (fun _ => true)
      (fun _ => Ok (clean_annotation_pattern annotation_str));
  match color with
  | Some (String c color') =>
      Ok (format_annotation_with_color clean_annotation (String c color'))
  | _ => Ok clean_annotation
  end.

(** [if param.description: d[param.arg_name] = param.description.strip()] *)
Definition record_param (d : gmap string string) (param : DocstringParam)
    : gmap string string :=
  match description param with
  | Some (String c text) => <[arg_name param := strip (String c text)]> d
  | _ => d
  end.

(** [docstring] is [None] or a string; [not docstring] holds of [None]
    and of the empty string. *)
Definition parse_docstring_params (docstring : option string)
    (style : DocstringStyle) : result (gmap string string) :=
  match docstring with
  | None | Some EmptyString => Ok ∅
  | Some docstring =>
      try_except
        (params ← parse_docstring docstring;
         Ok (fold_left record_param params ∅))
        (fun _ => true)
        (fun _ => Ok (_parse_docstring_manual docstring))
  end.

End Module.

(** ** The language of type expressions

    The annotations the module is written for: names, dotted names,
    subscripts and [|] unions.  The three levels follow the grammar: a
    primary, a union of primaries, and the comma separated arguments of a
    subscript. *)

Inductive prim : Type :=
  | PName (id : string)
  | PAttr (value : prim) (attr : string)
  | PSub (value : prim) (slice : slices)
with union : Type :=
  | UPrim (p : prim)
  | UOr (l : union) (r : prim)
with slices : Type :=
  | SOne (u : union)
  | SMore (u : union) (rest : slices).

Scheme prim_mutind := Induction for prim Sort Prop
  with union_mutind := Induction for union Sort Prop
  with slices_mutind := Induction for slices Sort Prop.
Combined Scheme type_expression_ind from prim_mutind, union_mutind, slices_mutind.

(** An identifier that is not a keyword. *)
Definition valid_name (id : string) : bool :=
  match id with
  | String c rest =>
      ident_start c && all_chars ident_char rest && negb (is_keyword id)
  | EmptyString => false
  end.

Fixpoint valid_prim (p : prim) : bool :=
  match p with
  | PName id => valid_name id
  | PAttr value attr => valid_prim value && valid_name attr
  | PSub value slice => valid_prim value && valid_slices slice
  end
with valid_union (u : union) : bool :=
  match u with
  | UPrim p => valid_prim p
  | UOr l r => valid_union l && valid_prim r
  end
with valid_slices (a : slices) : bool :=
  match a with
  | SOne u => valid_union u
  | SMore u rest => valid_union u && valid_slices rest
  end.





(** The type expression without its qualifiers: what the visitor keeps. *)
Fixpoint strip_prim (p : prim) : prim :=
  match p with
  | PName id => PName id
  | PAttr _ attr => PName attr
  | PSub value slice => PSub (strip_prim value) (strip_slices slice)
  end
with strip_union (u : union) : union :=
  match u with
  | UPrim p => UPrim (strip_prim p)
  | UOr l r => UOr (strip_union l) (strip_prim r)
  end
with strip_slices (a : slices) : slices :=
  match a with
  | SOne u => SOne (strip_union u)
  | SMore u rest => SMore (strip_union u) (strip_slices rest)
  end.






(** ** The two public operations, with the names of the specification *)

(** [normalize]: [clean_annotation_string] without a colour, over the
    model of [ast.parse]. *)
Definition normalize (raw : string) : result string :=
  clean_annotation_string py_parse raw None.

(** a line break, and a double quote, as one-character strings *)
Definition nl : string := String newline "".
Definition dq : string := String dquote "".


(** ** Predicates used in the proofs *)

(** A visit only appends: [extends e] says that visiting [e] with the
    list [acc] gives [acc] followed by what a visit from the empty list
    gives. *)
Definition extends (e : expr) : Prop :=
  forall acc, visit e acc = (acc ++ visit e [])%list.


(** [within strict r ts]: the result [r] is not [OutOfFuel], and what it
    leaves of the input [ts] is no longer (shorter, if [strict]). *)
Definition within {A : Type} (strict : bool) (r : presult (A * list token))
    (ts : list token) : Prop :=
  match r with
  | Parsed (_, rest) =>
      if strict then length rest < length ts else length rest <= length ts
  | Invalid => True
  | OutOfFuel => False
  end.




(** [plain u]: the names are identifiers and there is no qualifier. *)
Definition plain (u : union) : Prop :=
  valid_union u = true /\ strip_union u = u.


(** The repetition loop of [rmatch], by name: [m] is the matcher of the
    repeated pattern, [n] bounds the number of rounds. *)
Definition star_loop (greedy : bool)
    (m : cont -> string -> captures -> option (string * captures))
    (k : cont) : nat -> string -> captures -> option (string * captures) :=
  fix loop (n : nat) (s : string) (g : captures) {struct n} :=
    match n with
    | O => k s g
    | S n' =>
        let again :=
          m (fun s' g' =>
               if String.length s' <? String.length s
               then loop n' s' g' else None) s g in
        if greedy
        then match again with Some x => Some x | None => k s g end
        else match k s g with Some x => Some x | None => again end
    end.

(** [requires c r]: every match of [r] consumes the character [c]
    (a syntactic sufficient condition). *)
Fixpoint requires (c : ascii) (r : regex) : bool :=
  match r with
  | Lit c' => Ascii.eqb c c'
  | Seq r1 r2 => requires c r1 || requires c r2
  | Alt r1 r2 => requires c r1 && requires c r2
  | Group _ r' => requires c r'
  | _ => false
  end.

(** [free c s]: the character [c] does not occur in [s]; [all_free c g]:
    it occurs in no captured group. *)
Definition free (c : ascii) (s : string) : Prop := contains c s = false.

Definition all_free (c : ascii) (g : captures) : Prop :=
  Forall (fun entry => free c (snd entry)) g.

(** every description stored in the dictionary is stripped *)
Definition trimmed (d : gmap string string) : Prop :=
  forall name v, d !! name = Some v -> strip v = v.


(** * Properties *)

(** ** The pattern fallback *)



(** ** Docstring parameters *)

Lemma fold_assign_if_absent_keeps (ms : list captures) (d : gmap string string)
    (name v : string) :
  d !! name = Some v ->
  fold_left (fun d m => assign_if_absent m d) ms d !! name = Some v.
Proof.
  revert d. induction ms as [|m ms IH]; intros d Hd; simpl; [exact Hd|].
  apply IH. unfold assign_if_absent.
  destruct (d !! group 1 m) eqn:Hm; [exact Hd|].
  rewrite lookup_insert_ne; [exact Hd|]. intros E. rewrite E in Hm. congruence.
Qed.

Lemma sphinx_pass_keeps (docstring : string) (d : gmap string string) (name v : string) :
  d !! name = Some v -> sphinx_pass docstring d !! name = Some v.
Proof. apply fold_assign_if_absent_keeps. Qed.

Lemma numpy_pass_keeps (docstring : string) (d : gmap string string) (name v : string) :
  d !! name = Some v -> numpy_pass docstring d !! name = Some v.
Proof.
  intros Hd. unfold numpy_pass.
  destruct (re_search dotall numpy_pattern docstring); [|exact Hd].
  now apply fold_assign_if_absent_keeps.
Qed.

(** C3 (as stated, refuted): with [:param x: first] on one line and
    [:param x: second] on a later line, the entry of [x] is not ["first"]. *)
Lemma first_param_line_wins_refuted :
  _parse_docstring_manual (":param x: first" ++ nl ++ ":param x: second") !! "x"
  <> Some "first".
Proof. vm_compute. discriminate. Qed.

(** C3 (amended): an entry made by the first loop is never changed by the
    two later loops; inside the first loop every match is assigned, so the
    last match of a name wins, and the docstring with [:param x: first]
    followed by [:param x: second] maps [x] to ["second"]. *)
Theorem manual_docstring_precedence :
  (forall (docstring name v : string),
      google_pass docstring ∅ !! name = Some v ->
      _parse_docstring_manual docstring !! name = Some v) /\
  (forall (ms : list captures) (m : captures) (d : gmap string string),
      fold_left (fun d m => assign m d) (ms ++ [m]) d !! group 1 m
      = Some (strip (group 2 m))) /\
  _parse_docstring_manual (":param x: first" ++ nl ++ ":param x: second") !! "x"
  = Some "second".
Proof.
  split; [|split].
  - intros docstring name v H. unfold _parse_docstring_manual.
    apply numpy_pass_keeps, sphinx_pass_keeps, H.
  - intros ms m d. rewrite fold_left_app. simpl. unfold assign.
    apply lookup_insert_eq.
  - vm_compute. reflexivity.
Qed.

Lemma manual_docstring_precedence_witness :
  google_pass (":param x: first" ++ nl ++ ":param y: other") ∅ !! "x" = Some "first" /\
  _parse_docstring_manual (":param x: first" ++ nl ++ ":param y: other") !! "x"
  = Some "first".
Proof.
  split; [vm_compute; reflexivity|].
  apply (proj1 manual_docstring_precedence). vm_compute. reflexivity.
Defined.

(** C10: the style argument has no influence on the result: two calls
    that differ in the style only agree, the structured path is a function
    of what the parser returns for the docstring, and the manual path a
    function of the docstring. *)
Theorem style_is_not_consulted :
  (forall (parse_docstring : string -> result (list DocstringParam))
          (docstring : option string) (s1 s2 : DocstringStyle),
      parse_docstring_params parse_docstring docstring s1
      = parse_docstring_params parse_docstring docstring s2) /\
  (forall (parse_docstring : string -> result (list DocstringParam))
          (c : ascii) (text : string) (style : DocstringStyle)
          (params : list DocstringParam),
      parse_docstring (String c text) = Ok params ->
      parse_docstring_params parse_docstring (Some (String c text)) style
      = Ok (fold_left record_param params ∅)) /\
  (forall (parse_docstring : string -> result (list DocstringParam))
          (c : ascii) (text : string) (style : DocstringStyle) (e : exc),
      parse_docstring (String c text) = Raise e ->
      parse_docstring_params parse_docstring (Some (String c text)) style
      = Ok (_parse_docstring_manual (String c text))).
Proof.
  split; [|split].
  - intros parse_docstring docstring s1 s2.
    destruct docstring as [[|c text]|]; reflexivity.
  - intros parse_docstring c text style params H.
    unfold parse_docstring_params. now rewrite H.
  - intros parse_docstring c text style e H.
    unfold parse_docstring_params. now rewrite H.
Qed.

Lemma style_is_not_consulted_witness :
  parse_docstring_params (fun _ => Raise ValueError) (Some ":param a: b") GOOGLE
  = Ok (_parse_docstring_manual ":param a: b") /\
  parse_docstring_params
    (fun _ => Ok [ {| arg_name := "a"; description := Some " b " |} ])
    (Some "text") NUMPY
  = Ok (fold_left record_param [ {| arg_name := "a"; description := Some " b " |} ] ∅).
Proof.
  split.
  - apply (proj2 (proj2 style_is_not_consulted)) with (e := ValueError).
    reflexivity.
  - apply (proj1 (proj2 style_is_not_consulted)). reflexivity.
Defined.

(** C9: empty inputs are not errors. *)
Theorem empty_inputs :
  normalize "" = Ok "" /\
  clean_annotation_ast py_parse "" = Ok "" /\
  (forall (parse_docstring : string -> result (list DocstringParam))
          (style : DocstringStyle),
      parse_docstring_params parse_docstring (Some "") style = Ok ∅ /\
      parse_docstring_params parse_docstring None style = Ok ∅).
Proof. repeat split; vm_compute; reflexivity. Qed.

(** C8: both public operations return a value, whatever the two parsers
    do (return or raise). *)
Theorem public_operations_total :
  (forall (ast_parse : string -> result expr) (raw : string) (color : option string),
      exists out, clean_annotation_string ast_parse raw color = Ok out) /\
  (forall (parse_docstring : string -> result (list DocstringParam))
          (docstring : option string) (style : DocstringStyle),
      exists mapping, parse_docstring_params parse_docstring docstring style = Ok mapping) /\
  normalize "{{{not valid" = Ok "{{{not valid".
Proof.
  split; [|split].
  - intros ast_parse raw color.
    unfold clean_annotation_string, clean_annotation_ast.
    destruct (ast_parse raw) as [tree|[]]; simpl;
      destruct color as [[|c color]|]; eauto.
  - intros parse_docstring docstring style. unfold parse_docstring_params.
    destruct docstring as [[|c docstring]|]; eauto.
    destruct (parse_docstring (String c docstring)); simpl; eauto.
  - vm_compute. reflexivity.
Qed.

(** ** Strings *)

Lemma sapp_cons (c : ascii) (a b : string) : String c a ++ b = String c (a ++ b).
Proof. reflexivity. Qed.

Lemma sapp_empty_l (a : string) : "" ++ a = a.
Proof. reflexivity. Qed.

Lemma sapp_empty_r (a : string) : a ++ "" = a.
Proof. induction a as [|c a IH]; [reflexivity|]. now rewrite sapp_cons, IH. Qed.

Lemma sapp_assoc (a b c : string) : (a ++ b) ++ c = a ++ b ++ c.
Proof. induction a as [|x a IH]; [reflexivity|]. now rewrite !sapp_cons, IH. Qed.

Lemma concat_cons (x : string) (xs : list string) :
  String.concat "" (x :: xs) = x ++ String.concat "" xs.
Proof. destruct xs; simpl; [now rewrite sapp_empty_r|reflexivity]. Qed.

Lemma concat_app (xs ys : list string) :
  String.concat "" (xs ++ ys)%list = String.concat "" xs ++ String.concat "" ys.
Proof.
  induction xs as [|x xs IH]; [reflexivity|].
  change ((x :: xs) ++ ys)%list with (x :: (xs ++ ys))%list.
  now rewrite !concat_cons, IH, sapp_assoc.
Qed.

(** ** The visitor *)

(** Induction on trees, with the hypothesis for every element of a list
    of children. *)
Section expr_induction.
Variable P : expr -> Prop.
Hypothesis HName : forall id, P (Name id).
Hypothesis HAttribute : forall value attr, P value -> P (Attribute value attr).
Hypothesis HSubscript : forall value slice, P value -> P slice -> P (Subscript value slice).
Hypothesis HConstant : forall value, P (Constant value).
Hypothesis HBinOp : forall l op r, P l -> P r -> P (BinOp l op r).
Hypothesis HUnaryOp : forall op operand, P operand -> P (UnaryOp op operand).
Hypothesis HCall : forall func args, P func -> Forall P args -> P (Call func args).
Hypothesis HTuple : forall elts, Forall P elts -> P (Tuple elts).
Hypothesis HList : forall elts, Forall P elts -> P (List elts).

Fixpoint expr_induction (e : expr) : P e :=
    let all := fix all (l : list expr) : Forall P l :=
      match l with
      | [] => List.Forall_nil P
      | x :: xs => List.Forall_cons P x xs (expr_induction x) (all xs)
      end in
    match e with
    | Name id => HName id
    | Attribute value attr => HAttribute value attr (expr_induction value)
    | Subscript value slice =>
        HSubscript value slice (expr_induction value) (expr_induction slice)
    | Constant value => HConstant value
    | BinOp l op r => HBinOp l op r (expr_induction l) (expr_induction r)
    | UnaryOp op operand => HUnaryOp op operand (expr_induction operand)
    | Call func args => HCall func args (expr_induction func) (all args)
    | Tuple elts => HTuple elts (all elts)
    | List elts => HList elts (all elts)
    end.
End expr_induction.

Lemma visit_each_extends (nodes : list expr) :
  Forall extends nodes ->
  forall acc, visit_each visit nodes acc = (acc ++ visit_each visit nodes [])%list.
Proof.
  induction 1 as [|e nodes He _ IH]; intros acc; simpl.
  - now rewrite List.app_nil_r.
  - rewrite IH, (IH (visit e [])), He. now rewrite <- List.app_assoc.
Qed.

Lemma visit_elts_extends (elts : list expr) :
  Forall extends elts ->
  forall i acc, visit_elts visit i elts acc = (acc ++ visit_elts visit i elts [])%list.
Proof.
  induction 1 as [|e elts He _ IH]; intros i acc; simpl.
  - now rewrite List.app_nil_r.
  - rewrite IH, (IH _ (visit e _)), He.
    destruct (0 <? i); unfold append_to; simpl.
    + rewrite (He [_]). now rewrite <- !List.app_assoc.
    + now rewrite <- !List.app_assoc.
Qed.

Lemma visit_extends_elts (e : expr) :
  extends e /\ match e with Tuple elts => Forall extends elts | _ => True end.
Proof.
  induction e using expr_induction; (split; [|try exact I]).
  - intros acc. reflexivity.
  - intros acc. reflexivity.
  - destruct IHe1 as [H1 _], IHe2 as [H2 Helts]. intros acc.
    simpl. unfold visit_Subscript, append_to.
    destruct e2;
      try (rewrite (H2 (visit e1 acc ++ ["["])%list),
             (H2 (visit e1 [] ++ ["["])%list), (H1 acc);
           now rewrite <- !List.app_assoc).
    rewrite (visit_elts_extends _ Helts 0 (visit e1 acc ++ ["["])%list),
      (visit_elts_extends _ Helts 0 (visit e1 [] ++ ["["])%list), (H1 acc).
    now rewrite <- !List.app_assoc.
  - intros acc. reflexivity.
  - destruct IHe1 as [H1 _], IHe2 as [H2 _]. intros acc.
    simpl. unfold visit_BinOp, append_to.
    destruct op;
      try (rewrite (H2 (visit e1 acc)), (H2 (visit e1 [])), (H1 acc);
           now rewrite <- !List.app_assoc).
    rewrite (H2 (visit e1 acc ++ [" | "])%list),
      (H2 (visit e1 [] ++ [" | "])%list), (H1 acc).
    now rewrite <- !List.app_assoc.
  - destruct IHe as [H _]. exact H.
  - destruct IHe as [Hf _]. intros acc. simpl.
    assert (Hargs : Forall extends args) by (eapply Forall_impl; [exact H|]; now intros ? [? _]).
    rewrite visit_each_extends, (visit_each_extends _ Hargs (visit e [])), Hf by exact Hargs.
    now rewrite <- List.app_assoc.
  - intros acc. simpl. apply visit_each_extends.
    eapply Forall_impl; [exact H|]. now intros ? [? _].
  - eapply Forall_impl; [exact H|]. now intros ? [? _].
  - intros acc. simpl. apply visit_each_extends.
    eapply Forall_impl; [exact H|]. now intros ? [? _].
Qed.

Lemma visit_extends (e : expr) (acc : list string) :
  visit e acc = (acc ++ visit e [])%list.
Proof. apply visit_extends_elts. Qed.

Lemma concat_visit (e : expr) (acc : list string) :
  String.concat "" (visit e acc) = String.concat "" acc ++ render e.
Proof. unfold render. now rewrite visit_extends, concat_app. Qed.

(** The text of each node class. *)
Lemma render_Name (id : string) : render (Name id) = id.
Proof. reflexivity. Qed.


Lemma render_Constant (value : constant) : render (Constant value) = repr value.
Proof. reflexivity. Qed.

Lemma render_BinOp (l : expr) (op : operator) (r : expr) :
  render (BinOp l op r)
  = render l ++ match op with BitOr => " | " | _ => "" end ++ render r.
Proof.
  unfold render at 1. simpl. unfold visit_BinOp, append_to.
  destruct op; rewrite concat_visit; try reflexivity.
  rewrite concat_app. simpl String.concat. now rewrite sapp_assoc.
Qed.

Lemma concat_visit_each (nodes : list expr) (acc : list string) :
  String.concat "" (visit_each visit nodes acc)
  = String.concat "" acc ++ String.concat "" (map render nodes).
Proof.
  revert acc. induction nodes as [|e nodes IH]; intros acc; cbn [visit_each map].
  - simpl. now rewrite sapp_empty_r.
  - now rewrite IH, concat_visit, sapp_assoc, concat_cons.
Qed.


Lemma render_Tuple (elts : list expr) :
  render (Tuple elts) = String.concat "" (map render elts).
Proof. unfold render at 1. simpl. now rewrite concat_visit_each. Qed.

(** [', '.join] of a non-empty list: the head, then every other element
    behind a separator. *)
Lemma join_cons (x : string) (xs : list string) :
  String.concat ", " (x :: xs)
  = x ++ String.concat "" (map (fun y => ", " ++ y) xs).
Proof.
  revert x. induction xs as [|y ys IH]; intros x.
  - simpl. now rewrite sapp_empty_r.
  - change (String.concat ", " (x :: y :: ys))
      with (x ++ ", " ++ String.concat ", " (y :: ys)).
    rewrite IH. simpl map. rewrite concat_cons. now rewrite sapp_assoc.
Qed.

Lemma concat_visit_elts_later (elts : list expr) (i : nat) (acc : list string) :
  0 < i ->
  String.concat "" (visit_elts visit i elts acc)
  = String.concat "" acc
    ++ String.concat "" (map (fun y => ", " ++ y) (map render elts)).
Proof.
  revert i acc. induction elts as [|e elts IH]; intros i acc Hi;
    cbn [visit_elts map].
  - simpl. now rewrite sapp_empty_r.
  - destruct (Nat.ltb_spec 0 i) as [_|]; [|lia].
    rewrite IH by lia. unfold append_to.
    rewrite concat_visit, concat_app. simpl (String.concat "" [", "]).
    now rewrite concat_cons, !sapp_assoc.
Qed.

Lemma concat_visit_elts (elts : list expr) (acc : list string) :
  String.concat "" (visit_elts visit 0 elts acc)
  = String.concat "" acc ++ String.concat ", " (map render elts).
Proof.
  destruct elts as [|e elts]; cbn [visit_elts map].
  - simpl. now rewrite sapp_empty_r.
  - rewrite concat_visit_elts_later by lia.
    cbn [Nat.ltb Nat.leb].
    now rewrite concat_visit, sapp_assoc, join_cons.
Qed.

Lemma render_Subscript_Tuple (base : expr) (elts : list expr) :
  render (Subscript base (Tuple elts))
  = render base ++ "[" ++ String.concat ", " (map render elts) ++ "]".
Proof.
  unfold render at 1. simpl. unfold visit_Subscript, append_to.
  rewrite concat_app, concat_visit_elts, concat_app. simpl String.concat.
  now rewrite !sapp_assoc.
Qed.



(** ** The syntax-tree path *)




(** C5 (as stated, refuted): the double quotes of [List["X"]] are not
    kept; the result has no double quote at all. *)
Lemma literal_quoting_kept_refuted :
  exists out,
    normalize ("List[" ++ dq ++ "X" ++ dq ++ "]") = Ok out /\
    contains dquote out = false.
Proof. exists "List['X']". split; vm_compute; reflexivity. Qed.

(** C5 (amended): a constant is rendered as its [repr], which does not
    depend on how the literal was written: a string is put in single
    quotes unless it holds a single quote and no double quote.
    [normalize] of [List["X"]] is [List['X']]. *)
Theorem literal_rendered_by_repr :
  (forall value : constant, render (Constant value) = repr value) /\
  (forall s : string,
      contains squote s && negb (contains dquote s) = false ->
      repr (CStr s) = String squote (repr_chars squote s ++ String squote "")) /\
  (forall s : string,
      contains squote s && negb (contains dquote s) = true ->
      repr (CStr s) = String dquote (repr_chars dquote s ++ String dquote "")) /\
  normalize ("List[" ++ dq ++ "X" ++ dq ++ "]") = Ok "List['X']" /\
  normalize "List['X']" = Ok "List['X']".
Proof.
  split; [exact render_Constant|].
  split; [|split].
  - intros s H. unfold repr, repr_str. now rewrite H.
  - intros s H. unfold repr, repr_str. now rewrite H.
  - split; vm_compute; reflexivity.
Qed.

Lemma literal_rendered_by_repr_witness :
  repr (CStr "X") = "'X'" /\ repr (CStr "it's") = dq ++ "it's" ++ dq.
Proof.
  split.
  - rewrite (proj1 (proj2 literal_rendered_by_repr) "X"); reflexivity.
  - rewrite (proj1 (proj2 (proj2 literal_rendered_by_repr)) "it's"); reflexivity.
Defined.

(** ** The parser model: recursion bound *)

(** One unfolding of each parsing function. *)
Lemma parse_exprs_S (n : nat) (ts : list token) :
  parse_exprs (S n) ts =
  if closes ts then Parsed ([], false, ts)
  else
    '(e, ts1) ← parse_expr n 1 ts;
    match ts1 with
    | COMMA :: ts2 =>
        '(es, _, ts3) ← parse_exprs n ts2;
        Parsed (e :: es, true, ts3)
    | _ => Parsed ([e], false, ts1)
    end.
Proof. reflexivity. Qed.

Lemma parse_expr_S (n minp : nat) (ts : list token) :
  parse_expr (S n) minp ts =
  '(l, ts1) ← parse_factor n ts; parse_binops n minp l ts1.
Proof. reflexivity. Qed.

Lemma parse_factor_S (n : nat) (ts : list token) :
  parse_factor (S n) ts =
  match ts with
  | PLUS :: ts' =>
      '(e, ts1) ← parse_factor n ts'; Parsed (UnaryOp UAdd e, ts1)
  | MINUS :: ts' =>
      '(e, ts1) ← parse_factor n ts'; Parsed (UnaryOp USub e, ts1)
  | TILDE :: ts' =>
      '(e, ts1) ← parse_factor n ts'; Parsed (UnaryOp Invert e, ts1)
  | _ =>
      '(a, ts1) ← parse_atom n ts;
      parse_trailers n a ts1
  end.
Proof. reflexivity. Qed.

Lemma parse_atom_S (n : nat) (ts : list token) :
  parse_atom (S n) ts =
  match ts with
  | NAME id :: ts' => e ← atom_of_name id; Parsed (e, ts')
  | NUMBER k :: ts' => Parsed (Constant (CInt k), ts')
  | STRING s :: ts' =>
      let (t, ts1) := strings_rest s ts' in
      Parsed (Constant (CStr t), ts1)
  | ELLIPSIS :: ts' => Parsed (Constant CEllipsis, ts')
  | LPAR :: ts' =>
      '(es, comma, ts1) ← parse_exprs n ts';
      match ts1 with
      | RPAR :: ts2 => Parsed (group_or_tuple es comma, ts2)
      | _ => Invalid
      end
  | LSQB :: ts' =>
      '(es, _, ts1) ← parse_exprs n ts';
      match ts1 with
      | RSQB :: ts2 => Parsed (List es, ts2)
      | _ => Invalid
      end
  | _ => Invalid
  end.
Proof. reflexivity. Qed.

Lemma parse_trailers_S (n : nat) (e : expr) (ts : list token) :
  parse_trailers (S n) e ts =
  match ts with
  | DOT :: NAME a :: ts' =>
      if is_keyword a then Invalid
      else parse_trailers n (Attribute e a) ts'
  | DOT :: _ => Invalid
  | LSQB :: ts' =>
      '(es, comma, ts1) ← parse_exprs n ts';
      match es, ts1 with
      | _ :: _, RSQB :: ts2 =>
          parse_trailers n (Subscript e (group_or_tuple es comma)) ts2
      | _, _ => Invalid
      end
  | LPAR :: ts' =>
      '(es, _, ts1) ← parse_exprs n ts';
      match ts1 with
      | RPAR :: ts2 => parse_trailers n (Call e es) ts2
      | _ => Invalid
      end
  | _ => Parsed (e, ts)
  end.
Proof. reflexivity. Qed.

Lemma parse_binops_S (n minp : nat) (l : expr) (ts : list token) :
  parse_binops (S n) minp l ts =
  match ts with
  | t :: ts' =>
      match binop_of t with
      | Some (p, op) =>
          if minp <=? p then
            '(r, ts1) ← parse_expr n (S p) ts';
            parse_binops n minp (BinOp l op r) ts1
          else Parsed (l, ts)
      | None => Parsed (l, ts)
      end
  | [] => Parsed (l, ts)
  end.
Proof. reflexivity. Qed.





(** The bound is enough: with four steps per token and a few more, no
    function runs out. *)
Lemma strings_rest_length (acc : string) (ts : list token) :
  length (snd (strings_rest acc ts)) <= length ts.
Proof.
  revert acc. induction ts as [|t ts IH]; intros acc; [simpl; lia|].
  destruct t; simpl; try lia. specialize (IH (acc ++ s)). lia.
Qed.

Lemma bind_within {A B : Type} (strict strict' : bool)
    (x : presult (A * list token)) (k : A * list token -> presult (B * list token))
    (ts ts' : list token) :
  within strict x ts ->
  (forall a rest,
      (if strict then length rest < length ts else length rest <= length ts) ->
      within strict' (k (a, rest)) ts') ->
  within strict' (x ≫= k) ts'.
Proof.
  intros Hx Hk. destruct x as [[a rest]| |]; simpl in *; auto.
Qed.

Lemma parse_within (n : nat) :
  (forall ts, 4 * length ts + 4 <= n -> within false (parse_exprs n ts) ts) /\
  (forall minp ts, 4 * length ts + 3 <= n -> within true (parse_expr n minp ts) ts) /\
  (forall ts, 4 * length ts + 2 <= n -> within true (parse_factor n ts) ts) /\
  (forall ts, 4 * length ts + 1 <= n -> within true (parse_atom n ts) ts) /\
  (forall e ts, 4 * length ts + 1 <= n -> within false (parse_trailers n e ts) ts) /\
  (forall minp l ts, 4 * length ts + 1 <= n -> within false (parse_binops n minp l ts) ts).
Proof.
  induction n as [|n (IHexprs & IHexpr & IHfactor & IHatom & IHtrailers & IHbinops)].
  { repeat split; intros; lia. }
  repeat split.
  - intros ts Hn. rewrite parse_exprs_S.
    destruct (closes ts); [simpl; lia|].
    eapply bind_within; [apply IHexpr; lia|].
    intros e ts1 H1. destruct ts1 as [|[] ts2]; simpl in *; try lia.
    eapply (bind_within false false (A := list expr * bool));
      [apply IHexprs; simpl; lia|].
    intros [es c] ts3 H3. simpl in *. lia.
  - intros minp ts Hn. rewrite parse_expr_S.
    eapply bind_within; [apply IHfactor; lia|].
    intros l ts1 H1. simpl in H1.
    assert (H := IHbinops minp l ts1 ltac:(lia)).
    destruct (parse_binops n minp l ts1) as [[r rest]| |]; simpl in *; auto; try lia.
  - intros ts Hn. rewrite parse_factor_S.
    assert (Hatom : within true
              ('(a, ts1) ← parse_atom n ts; parse_trailers n a ts1) ts).
    { eapply bind_within; [apply IHatom; lia|].
      intros a ts1 H1. simpl in H1.
      assert (H := IHtrailers a ts1 ltac:(lia)).
      destruct (parse_trailers n a ts1) as [[r rest]| |]; simpl in *; auto; try lia. }
    destruct ts as [|[] ts']; try exact Hatom;
      (eapply bind_within; [apply IHfactor; simpl in *; lia|];
       intros e ts1 H1; simpl in *; lia).
  - intros ts Hn. rewrite parse_atom_S.
    destruct ts as [|[] ts']; simpl in *; try lia; try exact I.
    + unfold atom_of_name.
      destruct (String.eqb id "None"), (String.eqb id "True"),
        (String.eqb id "False"), (is_keyword id); simpl; lia || exact I.
    + pose proof (strings_rest_length s ts') as H.
      destruct (strings_rest s ts') as [t ts1]. simpl in *. lia.
    + eapply (bind_within false true (A := list expr * bool));
        [apply IHexprs; lia|].
      intros [es c] ts1 H1. destruct ts1 as [|[] ts2]; simpl in *; auto; lia.
    + eapply (bind_within false true (A := list expr * bool));
        [apply IHexprs; lia|].
      intros [es c] ts1 H1. destruct ts1 as [|[] ts2]; simpl in *; auto; lia.
  - intros e ts Hn. rewrite parse_trailers_S.
    destruct ts as [|[] ts']; simpl in *; try lia.
    + eapply (bind_within false false (A := list expr * bool));
        [apply IHexprs; lia|].
      intros [es c] ts1 H1. destruct ts1 as [|[] ts2]; simpl in *; auto.
      assert (H := IHtrailers (Call e es) ts2 ltac:(lia)).
      destruct (parse_trailers n (Call e es) ts2) as [[r rest]| |]; simpl in *; auto; try lia.
    + eapply (bind_within false false (A := list expr * bool));
        [apply IHexprs; lia|].
      intros [[|e' es] c] ts1 H1; [exact I|].
      destruct ts1 as [|[] ts2]; simpl in *; auto.
      match goal with |- context [parse_trailers n ?x ts2] =>
        assert (H := IHtrailers x ts2 ltac:(lia));
        destruct (parse_trailers n x ts2) as [[r rest]| |]; simpl in *; auto; lia
      end.
    + destruct ts' as [|[] ts']; simpl in *; auto.
      destruct (is_keyword id); [exact I|].
      assert (H := IHtrailers (Attribute e id) ts' ltac:(lia)).
      destruct (parse_trailers n (Attribute e id) ts') as [[r rest]| |];
        simpl in *; auto; try lia.
  - intros minp l ts Hn. rewrite parse_binops_S.
    destruct ts as [|t ts']; [simpl; lia|].
    destruct (binop_of t) as [[p op]|]; [|simpl; lia].
    destruct (minp <=? p); [|simpl; lia].
    eapply bind_within; [apply IHexpr; simpl in *; lia|].
    intros r ts1 H1. simpl in *.
    assert (H := IHbinops minp (BinOp l op r) ts1 ltac:(lia)).
    destruct (parse_binops n minp (BinOp l op r) ts1) as [[r' rest]| |];
      simpl in *; auto; try lia.
Qed.

Lemma parse_fuel_enough (ts : list token) :
  parse_exprs (parse_fuel ts) ts <> OutOfFuel.
Proof.
  pose proof (proj1 (parse_within (parse_fuel ts)) ts) as H.
  unfold parse_fuel in *. specialize (H ltac:(lia)).
  intros E. rewrite E in H. exact H.
Qed.

(** The model of [ast.parse] never reports the recursion bound. *)
Lemma py_parse_no_recursion_error (source : string) :
  py_parse source <> Raise OtherException.
Proof.
  unfold py_parse. destruct (tokenize source) as [ts|]; [|discriminate].
  pose proof (parse_fuel_enough ts) as H.
  destruct (parse_exprs (parse_fuel ts) ts) as [[[[|e es] c] [|t rest]]| |];
    try discriminate. now destruct H.
Qed.


(** ** The parser model on type expressions *)



















(** ** The tokenizer on type expressions *)

Ltac bool_to_prop :=
  rewrite ?orb_true_iff, ?orb_false_iff, ?andb_true_iff, ?andb_false_iff,
    ?Nat.leb_le, ?Nat.leb_gt, ?Nat.eqb_eq, ?Nat.eqb_neq in *.


















(** ** What the visitor prints for a type expression *)



Lemma join_two (x y : string) (l : list string) :
  String.concat ", " (x :: y :: l) = x ++ ", " ++ String.concat ", " (y :: l).
Proof. reflexivity. Qed.


Lemma strip_type_expression :
  (forall p, valid_prim p = true ->
     valid_prim (strip_prim p) = true /\ strip_prim (strip_prim p) = strip_prim p) /\
  (forall u, valid_union u = true -> plain (strip_union u)) /\
  (forall a, valid_slices a = true ->
     valid_slices (strip_slices a) = true /\
     strip_slices (strip_slices a) = strip_slices a).
Proof.
  unfold plain. apply type_expression_ind; simpl.
  - auto.
  - intros value _ attr H. apply andb_true_iff in H as [_ H]. auto.
  - intros value IHvalue slice IHslice H. apply andb_true_iff in H as [H1 H2].
    destruct (IHvalue H1) as [-> ->], (IHslice H2) as [-> ->]. auto.
  - intros p IH H. destruct (IH H) as [-> ->]. auto.
  - intros l IHl r IHr H. apply andb_true_iff in H as [H1 H2].
    destruct (IHl H1) as [-> ->], (IHr H2) as [-> ->]. auto.
  - intros u IH H. destruct (IH H) as [-> ->]. auto.
  - intros u IHu a IHa H. apply andb_true_iff in H as [H1 H2].
    destruct (IHu H1) as [-> ->], (IHa H2) as [-> ->]. auto.
Qed.








(** ** Dotted names *)










(** ** Idempotence *)




(** * Further properties *)

(** ** What a match can see *)

Lemma free_cons (c x : ascii) (s : string) :
  free c (String x s) <-> Ascii.eqb c x = false /\ free c s.
Proof. unfold free. simpl. now rewrite orb_false_iff. Qed.

Lemma free_take_string (c : ascii) (n : nat) (s : string) :
  free c s -> free c (take_string n s).
Proof.
  revert s. induction n as [|n IH]; intros s Hs; [reflexivity|].
  destruct s as [|x s]; [reflexivity|]. simpl.
  apply free_cons in Hs as [Hx Hs]. apply free_cons. auto.
Qed.

Lemma free_app (c : ascii) (a b : string) :
  free c (a ++ b) <-> free c a /\ free c b.
Proof.
  induction a as [|x a IH].
  - rewrite sapp_empty_l. unfold free at 2. simpl. tauto.
  - rewrite sapp_cons, !free_cons, IH. tauto.
Qed.

Lemma free_group (c : ascii) (n : nat) (g : captures) :
  all_free c g -> free c (group n g).
Proof.
  induction 1 as [|[m t] g Ht _ IH]; simpl; [reflexivity|].
  now destruct (n =? m).
Qed.

Lemma rmatch_Star (fl : flags) (greedy : bool) (r : regex) (k : cont)
    (s : string) (g : captures) :
  rmatch fl (Star greedy r) k s g
  = star_loop greedy (rmatch fl r) k (String.length s) s g.
Proof. reflexivity. Qed.

Lemma star_loop_S (greedy : bool)
    (m : cont -> string -> captures -> option (string * captures))
    (k : cont) (n : nat) (s : string) (g : captures) :
  star_loop greedy m k (S n) s g =
  let again :=
    m (fun s' g' =>
         if String.length s' <? String.length s
         then star_loop greedy m k n s' g' else None) s g in
  if greedy
  then match again with Some x => Some x | None => k s g end
  else match k s g with Some x => Some x | None => again end.
Proof. reflexivity. Qed.

(** A match on a text without [c] calls its continuation on a text
    without [c], and captures only texts without [c]. *)
Lemma rmatch_free (c : ascii) (fl : flags) (r : regex) :
  forall (k : cont) (s : string) (g : captures) res,
    free c s ->
    rmatch fl r k s g = Some res ->
    exists s' g', free c s' /\ (all_free c g -> all_free c g') /\ k s' g' = Some res.
Proof.
  induction r as [|x|p| |r1 IH1 r2 IH2|r1 IH1 r2 IH2|greedy r IH|n r IH|r IH| |];
    intros k s g res Hs H;
    [simpl in H|simpl in H|simpl in H|simpl in H|simpl in H|simpl in H|
     |simpl in H|simpl in H|simpl in H|simpl in H].
  - eauto.
  - destruct s as [|y s]; [discriminate|]. apply free_cons in Hs as [_ Hs].
    destruct (Ascii.eqb x y); [eauto|discriminate].
  - destruct s as [|y s]; [discriminate|]. apply free_cons in Hs as [_ Hs].
    destruct (p y); [eauto|discriminate].
  - destruct s as [|y s]; [discriminate|]. apply free_cons in Hs as [_ Hs].
    destruct (DOTALL fl || not_newline y); [eauto|discriminate].
  - destruct (IH1 _ _ _ _ Hs H) as (s1 & g1 & Hs1 & Hg1 & H1).
    destruct (IH2 _ _ _ _ Hs1 H1) as (s2 & g2 & Hs2 & Hg2 & H2). eauto 10.
  - destruct (rmatch fl r1 k s g) eqn:E1.
    + injection H as <-. eauto.
    + eauto.
  - rewrite rmatch_Star in H. revert res H. generalize (String.length s).
    intros n. revert s g Hs.
    induction n as [|n IHn]; intros s g Hs res H; [simpl in H; eauto|].
    assert (Hagain : forall x,
              rmatch fl r
                (fun s' g' =>
                   if String.length s' <? String.length s
                   then star_loop greedy (rmatch fl r) k n s' g' else None) s g
              = Some x ->
              exists s' g',
                free c s' /\ (all_free c g -> all_free c g') /\ k s' g' = Some x).
    { intros x Hx. destruct (IH _ _ _ _ Hs Hx) as (s1 & g1 & Hs1 & Hg1 & H1).
      destruct (String.length s1 <? String.length s); [|discriminate].
      destruct (IHn s1 g1 Hs1 x H1) as (s2 & g2 & Hs2 & Hg2 & H2). eauto 10. }
    rewrite star_loop_S in H. cbv zeta in H. destruct greedy.
    + match type of H with
      | match ?again with _ => _ end = _ => destruct again as [x|] eqn:E
      end.
      * injection H as <-. now apply Hagain.
      * eauto.
    + destruct (k s g) as [x|] eqn:E.
      * injection H as <-. eauto.
      * now apply Hagain.
  - destruct (IH _ _ _ _ Hs H) as (s1 & g1 & Hs1 & Hg1 & H1).
    exists s1, ((n, consumed s s1) :: g1).
    split; [exact Hs1|split; [|exact H1]].
    intros Hg. constructor; [apply free_take_string, Hs|exact (Hg1 Hg)].
  - destruct (rmatch fl r (fun s' g' => Some (s', g')) s g) as [[s1 g1]|] eqn:E;
      [|discriminate].
    destruct (IH _ _ _ _ Hs E) as (s2 & g2 & Hs2 & Hg2 & H2).
    injection H2 as -> ->. eauto.
  - destruct (at_dollar fl s); [eauto|discriminate].
  - destruct s; [eauto|discriminate].
Qed.

(** A pattern that requires [c] has no match on a text without [c]. *)
Lemma rmatch_requires (c : ascii) (fl : flags) (r : regex) :
  requires c r = true ->
  forall (k : cont) (s : string) (g : captures),
    free c s -> rmatch fl r k s g = None.
Proof.
  induction r as [|x|p| |r1 IH1 r2 IH2|r1 IH1 r2 IH2|greedy r IH|n r IH|r IH| |];
    simpl; intros Hr k s g Hs; try discriminate.
  - destruct s as [|y s]; [reflexivity|]. apply free_cons in Hs as [Hy _].
    apply Ascii.eqb_eq in Hr as <-. now rewrite Hy.
  - apply orb_true_iff in Hr as [Hr|Hr]; [now apply IH1|].
    destruct (rmatch fl r1 (rmatch fl r2 k) s g) as [res|] eqn:E; [|reflexivity].
    destruct (rmatch_free c fl r1 _ _ _ _ Hs E) as (s1 & g1 & Hs1 & _ & H1).
    now rewrite (IH2 Hr) in H1.
  - apply andb_true_iff in Hr as [Hr1 Hr2]. now rewrite IH1, IH2.
  - now apply IH.
Qed.

Lemma match_here_requires (c : ascii) (fl : flags) (r : regex) (s : string) :
  requires c r = true -> free c s -> match_here fl r s = None.
Proof. intros Hr Hs. unfold match_here. now rewrite (rmatch_requires c fl r Hr). Qed.

Lemma match_here_free (c : ascii) (fl : flags) (r : regex) (s : string)
    (n : nat) (g : captures) :
  free c s -> match_here fl r s = Some (n, g) -> all_free c g.
Proof.
  intros Hs H. unfold match_here in H.
  destruct (rmatch fl r (fun s' g => Some (s', g)) s []) as [[s1 g1]|] eqn:E;
    [|discriminate].
  injection H as _ <-.
  destruct (rmatch_free c fl r _ _ _ _ Hs E) as (s2 & g2 & _ & Hg & H2).
  injection H2 as _ ->. apply Hg. constructor.
Qed.

(** [re.sub], [re.finditer] and [re.search] find nothing. *)
Lemma sub_from_requires (c : ascii) (fl : flags) (r : regex)
    (repl : list template_item) (s : string) :
  requires c r = true -> free c s -> sub_from fl r repl 0 s = s.
Proof.
  intros Hr. induction s as [|x s IH]; intros Hs; simpl;
    rewrite (match_here_requires c fl r _ Hr Hs); [reflexivity|].
  apply free_cons in Hs as [_ Hs]. now rewrite IH.
Qed.

Lemma finditer_requires (c : ascii) (fl : flags) (r : regex) (s : string) :
  requires c r = true -> free c s -> re_finditer fl r s = [].
Proof.
  intros Hr. unfold re_finditer. induction s as [|x s IH]; intros Hs; simpl;
    rewrite (match_here_requires c fl r _ Hr Hs); [reflexivity|].
  apply free_cons in Hs as [_ Hs]. now apply IH.
Qed.

Lemma search_free (c : ascii) (fl : flags) (r : regex) (s : string) (g : captures) :
  free c s -> re_search fl r s = Some g -> all_free c g.
Proof.
  induction s as [|x s IH]; intros Hs; simpl.
  - destruct (match_here fl r "") as [[n g']|] eqn:E; [|discriminate].
    intros [= <-]. exact (match_here_free c fl r _ n g' Hs E).
  - destruct (match_here fl r (String x s)) as [[n g']|] eqn:E.
    + intros [= <-]. exact (match_here_free c fl r _ n g' Hs E).
    + apply free_cons in Hs as [_ Hs]. now apply IH.
Qed.

(** ** The pattern cleaner on plain text *)

Lemma re_sub_requires (c : ascii) (r : regex) (repl : list template_item) (s : string) :
  requires c r = true -> free c s -> re_sub r repl s = s.
Proof. apply sub_from_requires. Qed.

Lemma clean_annotation_pattern_plain (annotation_str : string) :
  free "." annotation_str -> free "<" annotation_str ->
  clean_annotation_pattern annotation_str = annotation_str.
Proof.
  intros Hdot Hlt. unfold clean_annotation_pattern, patterns.
  cbn [fold_left fst snd].
  rewrite (re_sub_requires "." _ _ annotation_str) by (reflexivity || assumption).
  rewrite (re_sub_requires "." _ _ annotation_str) by (reflexivity || assumption).
  rewrite (re_sub_requires "." _ _ annotation_str) by (reflexivity || assumption).
  rewrite (re_sub_requires "." _ _ annotation_str) by (reflexivity || assumption).
  rewrite (re_sub_requires "." _ _ annotation_str) by (reflexivity || assumption).
  rewrite (re_sub_requires "<" _ _ annotation_str) by (reflexivity || assumption).
  now rewrite (re_sub_requires "." _ _ annotation_str) by (reflexivity || assumption).
Qed.

(** the [except Exception] of [clean_annotation_string] *)
Lemma facade_fallback (ast_parse : string -> result expr) (raw : string) (e : exc) :
  ast_parse raw = Raise e ->
  clean_annotation_string ast_parse raw None = Ok (clean_annotation_pattern raw).
Proof.
  intros H. unfold clean_annotation_string, clean_annotation_ast. rewrite H.
  now destruct e.
Qed.

(** X1: every substitution rule needs a dot or an opening angle bracket,
    so a text with neither is returned unchanged. *)
Theorem pattern_cleaner_keeps_plain_text (annotation_str : string) :
  free "." annotation_str -> free "<" annotation_str ->
  clean_annotation_pattern annotation_str = annotation_str.
Proof. exact (clean_annotation_pattern_plain annotation_str). Qed.

Lemma pattern_cleaner_keeps_plain_text_witness :
  clean_annotation_pattern "Dict[str, Any] | None" = "Dict[str, Any] | None".
Proof. apply pattern_cleaner_keeps_plain_text; reflexivity. Defined.

(** X2: whatever the parser raises, also an exception that
    [clean_annotation_ast] lets through, the facade returns what the
    pattern cleaner makes of the input; a text without dot and without
    opening angle bracket comes back unchanged. *)
Theorem facade_absorbs_parser_exceptions
    (ast_parse : string -> result expr) (raw : string) (e : exc) :
  ast_parse raw = Raise e ->
  clean_annotation_string ast_parse raw None = Ok (clean_annotation_pattern raw) /\
  (free "." raw -> free "<" raw -> clean_annotation_string ast_parse raw None = Ok raw).
Proof.
  intros H. pose proof (facade_fallback ast_parse raw e H) as E.
  split; [exact E|].
  intros Hdot Hlt. now rewrite E, clean_annotation_pattern_plain.
Qed.

Lemma facade_absorbs_parser_exceptions_witness :
  clean_annotation_string (fun _ => Raise OtherException) "int (" None
  = Ok (clean_annotation_pattern "int (").
Proof.
  exact (proj1 (facade_absorbs_parser_exceptions
                  (fun _ => Raise OtherException) "int (" OtherException eq_refl)).
Defined.

(** ** Docstring parameters, continued *)

Lemma rstrip_rstrip (s : string) : rstrip (rstrip s) = rstrip s.
Proof.
  induction s as [|c s IH]; [reflexivity|]. simpl.
  destruct (rstrip s) as [|d t] eqn:E.
  - destruct (is_space c) eqn:Hc; [reflexivity|]. simpl. now rewrite Hc.
  - change (rstrip (String c (String d t)))
      with (match rstrip (String d t) with
            | EmptyString => if is_space c then "" else String c ""
            | u => String c u
            end).
    now rewrite IH.
Qed.

Lemma lstrip_head (s : string) :
  lstrip s = "" \/ exists c t, lstrip s = String c t /\ is_space c = false.
Proof.
  induction s as [|c s IH]; [now left|]. simpl.
  destruct (is_space c) eqn:Hc; [exact IH|]. right. eauto.
Qed.

Lemma lstrip_rstrip_head (c : ascii) (t : string) :
  is_space c = false -> lstrip (rstrip (String c t)) = rstrip (String c t).
Proof.
  intros Hc. simpl. destruct (rstrip t); rewrite ?Hc; simpl; now rewrite Hc.
Qed.

(** [strip] is idempotent. *)
Lemma strip_strip (s : string) : strip (strip s) = strip s.
Proof.
  unfold strip. destruct (lstrip_head s) as [->|(c & t & -> & Hc)]; [reflexivity|].
  now rewrite lstrip_rstrip_head, rstrip_rstrip.
Qed.

Lemma trimmed_empty : trimmed ∅.
Proof. intros name v H. now rewrite lookup_empty in H. Qed.

Lemma trimmed_insert (d : gmap string string) (name text : string) :
  trimmed d -> trimmed (<[name := strip text]> d).
Proof.
  intros Hd name' v. rewrite lookup_insert. case_decide.
  - intros [= <-]. apply strip_strip.
  - apply Hd.
Qed.

Lemma trimmed_assign (ms : list captures) (d : gmap string string) :
  trimmed d -> trimmed (fold_left (fun d m => assign m d) ms d).
Proof.
  revert d. induction ms as [|m ms IH]; intros d Hd; [exact Hd|].
  apply IH. now apply trimmed_insert.
Qed.

Lemma trimmed_assign_if_absent (ms : list captures) (d : gmap string string) :
  trimmed d -> trimmed (fold_left (fun d m => assign_if_absent m d) ms d).
Proof.
  revert d. induction ms as [|m ms IH]; intros d Hd; [exact Hd|].
  apply IH. unfold assign_if_absent.
  destruct (d !! group 1 m); [exact Hd|]. now apply trimmed_insert.
Qed.

Lemma trimmed_record (params : list DocstringParam) (d : gmap string string) :
  trimmed d -> trimmed (fold_left record_param params d).
Proof.
  revert d. induction params as [|p params IH]; intros d Hd; [exact Hd|].
  apply IH. unfold record_param.
  destruct (description p) as [[|c text]|]; try exact Hd.
  now apply trimmed_insert.
Qed.

(** X3: every description in the result is stripped, on the structured
    path and on the manual path: stripping it again changes nothing. *)
Theorem descriptions_are_stripped
    (parse_docstring : string -> result (list DocstringParam))
    (docstring : option string) (style : DocstringStyle)
    (mapping : gmap string string) (name description : string) :
  parse_docstring_params parse_docstring docstring style = Ok mapping ->
  mapping !! name = Some description ->
  strip description = description.
Proof.
  unfold parse_docstring_params. intros H.
  assert (Hm : trimmed mapping); [|now apply Hm].
  destruct docstring as [[|c text]|];
    try (injection H as <-; exact trimmed_empty).
  destruct (parse_docstring (String c text)) as [params|e]; simpl in H;
    injection H as <-.
  - apply trimmed_record, trimmed_empty.
  - unfold _parse_docstring_manual, numpy_pass, sphinx_pass, google_pass.
    destruct (re_search dotall numpy_pattern (String c text));
      repeat (apply trimmed_assign_if_absent || apply trimmed_assign);
      exact trimmed_empty.
Qed.

Lemma descriptions_are_stripped_witness :
  strip "the first one" = "the first one".
Proof.
  apply (descriptions_are_stripped (fun _ => Raise ValueError)
           (Some (":param x:   the first one  " ++ nl ++ ":returns: y")) AUTO
           (_parse_docstring_manual
              (":param x:   the first one  " ++ nl ++ ":returns: y")) "x");
    vm_compute; reflexivity.
Defined.

Lemma assign_keeps_keys (ms : list captures) (d : gmap string string) (name : string) :
  is_Some (d !! name) ->
  is_Some (fold_left (fun d m => assign m d) ms d !! name).
Proof.
  revert d. induction ms as [|m ms IH]; intros d Hd; [exact Hd|].
  apply IH. unfold assign. rewrite lookup_insert. case_decide; eauto.
Qed.

Lemma assign_defines_keys (ms : list captures) (d : gmap string string) (m : captures) :
  In m ms -> is_Some (fold_left (fun d m => assign m d) ms d !! group 1 m).
Proof.
  revert d. induction ms as [|m' ms IH]; intros d; [intros []|].
  cbn [fold_left]. intros [->|Hin]; [|now apply IH].
  apply assign_keeps_keys. unfold assign. rewrite lookup_insert_eq. eauto.
Qed.

Lemma assign_if_absent_present (ms : list captures) (d : gmap string string) :
  (forall m, In m ms -> is_Some (d !! group 1 m)) ->
  fold_left (fun d m => assign_if_absent m d) ms d = d.
Proof.
  induction ms as [|m ms IH]; intros H; [reflexivity|].
  simpl. unfold assign_if_absent at 2.
  destruct (H m (or_introl eq_refl)) as [v ->].
  apply IH. intros m' Hm'. apply H. now right.
Qed.

Lemma sphinx_after_google (docstring : string) (d : gmap string string) :
  sphinx_pass docstring (google_pass docstring d) = google_pass docstring d.
Proof.
  unfold sphinx_pass, google_pass, sphinx_pattern.
  apply assign_if_absent_present. intros m Hm.
  now apply assign_defines_keys.
Qed.

(** X4: the second loop of the manual extractor uses the pattern of the
    first, so every name it finds is present already and it adds nothing:
    the result is that of the first and the third loop alone. *)
Theorem sphinx_loop_adds_nothing (docstring : string) :
  (forall d, sphinx_pass docstring (google_pass docstring d)
             = google_pass docstring d) /\
  _parse_docstring_manual docstring
  = numpy_pass docstring (google_pass docstring ∅).
Proof.
  split; [apply sphinx_after_google|].
  unfold _parse_docstring_manual. now rewrite sphinx_after_google.
Qed.

(** X5: all three patterns of the manual extractor need a colon; for a
    docstring without one the mapping is empty. *)
Theorem manual_needs_a_colon (docstring : string) :
  free ":" docstring -> _parse_docstring_manual docstring = ∅.
Proof.
  intros H. unfold _parse_docstring_manual, numpy_pass, sphinx_pass, google_pass,
    sphinx_pattern.
  rewrite (finditer_requires ":" multiline_dotall google_pattern docstring)
    by (reflexivity || assumption).
  simpl fold_left.
  destruct (re_search dotall numpy_pattern docstring) as [numpy_match|] eqn:E;
    [|reflexivity].
  rewrite (finditer_requires ":" dotall param_pattern); [reflexivity..|].
  apply free_group. exact (search_free ":" dotall numpy_pattern docstring _ H E).
Qed.

Lemma manual_needs_a_colon_witness :
  _parse_docstring_manual
    ("Parameters" ++ nl ++ "----------" ++ nl ++ "x is a number" ++ nl) = ∅.
Proof. apply manual_needs_a_colon. vm_compute. reflexivity. Defined.

Lemma record_param_other (params : list DocstringParam) (d : gmap string string)
    (name : string) :
  (forall p c text, In p params -> description p = Some (String c text) ->
                    arg_name p <> name) ->
  fold_left record_param params d !! name = d !! name.
Proof.
  revert d. induction params as [|p params IH]; intros d H; [reflexivity|].
  simpl. rewrite IH by (intros q c text Hq; apply H; now right).
  unfold record_param. destruct (description p) as [[|c text]|] eqn:E; try reflexivity.
  apply lookup_insert_ne. exact (H p c text (or_introl eq_refl) E).
Qed.

(** X6: on the structured path a name has an entry only if some parsed
    parameter of that name has a non-empty description, and the last such
    parameter decides the entry. *)
Theorem structured_entries
    (parse_docstring : string -> result (list DocstringParam))
    (c : ascii) (text : string) (style : DocstringStyle) :
  (forall (params : list DocstringParam) (name : string),
      parse_docstring (String c text) = Ok params ->
      (forall p c' text', In p params -> description p = Some (String c' text') ->
                          arg_name p <> name) ->
      exists mapping,
        parse_docstring_params parse_docstring (Some (String c text)) style
        = Ok mapping /\ mapping !! name = None) /\
  (forall (before after : list DocstringParam) (p : DocstringParam)
          (c' : ascii) (text' : string),
      parse_docstring (String c text) = Ok (before ++ p :: after)%list ->
      description p = Some (String c' text') ->
      (forall q c'' text'', In q after -> description q = Some (String c'' text'') ->
                            arg_name q <> arg_name p) ->
      exists mapping,
        parse_docstring_params parse_docstring (Some (String c text)) style
        = Ok mapping /\
        mapping !! arg_name p = Some (strip (String c' text'))).
Proof.
  split.
  - intros params name Hparse Hname. eexists. split.
    + unfold parse_docstring_params. rewrite Hparse. reflexivity.
    + rewrite record_param_other by exact Hname. apply lookup_empty.
  - intros before after p c' text' Hparse Hp Hafter. eexists. split.
    + unfold parse_docstring_params. rewrite Hparse. reflexivity.
    + rewrite fold_left_app. simpl fold_left.
      rewrite record_param_other by exact Hafter.
      unfold record_param at 1. rewrite Hp. apply lookup_insert_eq.
Qed.

Lemma structured_entries_witness :
  exists mapping,
    parse_docstring_params
      (fun _ => Ok [ {| arg_name := "a"; description := Some "old" |};
                     {| arg_name := "a"; description := Some " new " |};
                     {| arg_name := "b"; description := None |} ])
      (Some "text") AUTO
    = Ok mapping /\ mapping !! "a" = Some (strip " new ").
Proof.
  apply (proj2 (structured_entries _ "t"%char "ext" AUTO)
           [ {| arg_name := "a"; description := Some "old" |} ]
           [ {| arg_name := "b"; description := None |} ]
           {| arg_name := "a"; description := Some " new " |} " "%char "new ").
  - reflexivity.
  - reflexivity.
  - intros q c text [<-|[]]. discriminate.
Defined.

(** ** The visitor, continued *)

(** X7: a visit only appends: what is in the result list stays, and
    what is appended does not depend on it. *)
Theorem visitor_only_appends (node : expr) :
  exists pieces,
    forall result, visit node result = (result ++ pieces)%list.
Proof. exists (visit node []). intros result. apply visit_extends. Qed.

(** X8: a chain of unions is printed flat, whichever way it is grouped,
    and any other binary operator is printed as nothing at all. *)
Theorem unions_are_flat :
  (forall a b c : expr,
      render (BinOp (BinOp a BitOr b) BitOr c)
      = render a ++ " | " ++ render b ++ " | " ++ render c /\
      render (BinOp a BitOr (BinOp b BitOr c))
      = render (BinOp (BinOp a BitOr b) BitOr c)) /\
  (forall (l r : expr) (op : operator),
      op <> BitOr -> render (BinOp l op r) = render l ++ render r) /\
  normalize "a | (b | c)" = normalize "(a | b) | c".
Proof.
  split; [|split].
  - intros a b c. rewrite !render_BinOp, !sapp_assoc. auto.
  - intros l r op Hop. rewrite render_BinOp. now destruct op.
  - vm_compute. reflexivity.
Qed.

Lemma unions_are_flat_witness :
  render (BinOp (Name "a") Add (Name "b")) = "a" ++ "b".
Proof. apply (proj1 (proj2 unions_are_flat)). discriminate. Defined.

Lemma render_List (elts : list expr) :
  render (List elts) = String.concat "" (map render elts).
Proof. unfold render at 1. simpl. now rewrite concat_visit_each. Qed.

(** X9: a list display has no method of its own, so only its elements are
    printed: in [Callable[[A, B], R]] the inner brackets and the comma
    between [A] and [B] are lost.  A unary operator is dropped likewise. *)
Theorem list_display_loses_brackets :
  (forall (base ret : expr) (params : list expr),
      render (Subscript base (Tuple [List params; ret]))
      = render base ++ "[" ++ String.concat "" (map render params)
        ++ ", " ++ render ret ++ "]") /\
  (forall (op : unaryop) (operand : expr),
      render (UnaryOp op operand) = render operand) /\
  normalize "Callable[[int, str], bool]" = Ok "Callable[intstr, bool]".
Proof.
  split; [|split].
  - intros base ret params. rewrite render_Subscript_Tuple.
    simpl map. rewrite join_two, render_List. simpl (String.concat ", " [_]).
    now rewrite !sapp_assoc.
  - reflexivity.
  - vm_compute. reflexivity.
Qed.

(** ** The colour decoration *)

Lemma length_app (a b : string) :
  String.length (a ++ b) = String.length a + String.length b.
Proof. induction a as [|x a IH]; [reflexivity|]. rewrite sapp_cons. simpl. now rewrite IH. Qed.

Lemma app_cancel_r (a b t : string) : a ++ t = b ++ t -> a = b.
Proof.
  revert b. induction a as [|x a IH]; intros [|y b] H.
  - reflexivity.
  - apply (f_equal String.length) in H.
    rewrite sapp_empty_l, sapp_cons in H. simpl in H. rewrite length_app in H. lia.
  - apply (f_equal String.length) in H.
    rewrite sapp_empty_l, sapp_cons in H. simpl in H. rewrite length_app in H. lia.
  - rewrite !sapp_cons in H. injection H as -> H. f_equal. now apply IH.
Qed.

Lemma app_cancel_l (t a b : string) : t ++ a = t ++ b -> a = b.
Proof.
  induction t as [|x t IH]; [auto|]. rewrite !sapp_cons. intros [= H]. auto.
Qed.

(** X10: a non-empty colour wraps the uncoloured result and nothing else
    changes; an empty colour string counts as no colour; and the
    uncoloured result can be read back from the decorated one. *)
Theorem colour_is_cosmetic :
  (forall (ast_parse : string -> result expr) (raw : string)
          (c : ascii) (color : string),
      clean_annotation_string ast_parse raw (Some (String c color))
      = (out ← clean_annotation_string ast_parse raw None;
         Ok (format_annotation_with_color out (String c color)))) /\
  (forall (ast_parse : string -> result expr) (raw : string),
      clean_annotation_string ast_parse raw (Some "")
      = clean_annotation_string ast_parse raw None) /\
  (forall a b color : string,
      format_annotation_with_color a color = format_annotation_with_color b color ->
      a = b).
Proof.
  split; [|split].
  - intros ast_parse raw c color. unfold clean_annotation_string.
    now destruct (try_except _ _ _).
  - reflexivity.
  - unfold format_annotation_with_color. intros a b color H.
    apply app_cancel_l, app_cancel_l, app_cancel_l in H.
    now apply app_cancel_r in H.
Qed.

Lemma colour_is_cosmetic_witness :
  format_annotation_with_color "int" "cyan" = "<fg=cyan>(int)</>" /\ "int" = "int".
Proof.
  split; [reflexivity|].
  apply (proj2 (proj2 colour_is_cosmetic) "int" "int" "cyan"). reflexivity.
Defined.

(** ** The two cleaners on canonical forms *)

Lemma ident_char_other (c x : ascii) :
  ident_char c = false -> ident_char x = true -> Ascii.eqb c x = false.
Proof.
  intros Hc Hx. destruct (Ascii.eqb_spec c x) as [->|]; [congruence|reflexivity].
Qed.

Lemma free_word (c : ascii) (s : string) :
  ident_char c = false -> all_chars ident_char s = true -> free c s.
Proof.
  intros Hc. induction s as [|x s IH]; [reflexivity|]. simpl.
  intros H. apply andb_true_iff in H as [Hx Hs]. apply free_cons.
  split; [now apply ident_char_other|now apply IH].
Qed.





(** ** The substitution rules one by one *)

Lemma sub_from_miss (fl : flags) (r : regex) (repl : list template_item)
    (x : ascii) (s : string) :
  match_here fl r (String x s) = None ->
  sub_from fl r repl 0 (String x s) = String x (sub_from fl r repl 0 s).
Proof. intros H. simpl. now rewrite H. Qed.

Lemma sub_from_hit (fl : flags) (r : regex) (repl : list template_item)
    (x : ascii) (s : string) (n : nat) (g : captures) :
  match_here fl r (String x s) = Some (S n, g) ->
  sub_from fl r repl 0 (String x s) = expand repl g ++ sub_from fl r repl n s.
Proof. intros H. simpl. now rewrite H. Qed.

Lemma sub_from_skip (fl : flags) (r : regex) (repl : list template_item)
    (a rest : string) :
  sub_from fl r repl (String.length a) (a ++ rest) = sub_from fl r repl 0 rest.
Proof.
  induction a as [|x a IH]; [reflexivity|]. rewrite sapp_cons. exact IH.
Qed.

Lemma rmatch_Str (fl : flags) (lit : string) (k : cont) (s : string) (g : captures) :
  rmatch fl (Str lit) k (lit ++ s) g = k s g.
Proof.
  induction lit as [|x lit IH]; [reflexivity|].
  rewrite sapp_cons. simpl. now rewrite Ascii.eqb_refl.
Qed.

Lemma match_here_Str (fl : flags) (lit s : string) :
  match_here fl (Str lit) (lit ++ s) = Some (String.length lit, []).
Proof.
  unfold match_here. rewrite rmatch_Str, length_app.
  f_equal. f_equal. lia.
Qed.

(** A literal prefix that needs the character [c], in front of a text
    without [c], is the one match. *)
Lemma re_sub_prefix (c x : ascii) (lit s : string) :
  requires c (Str (String x lit)) = true -> free c s ->
  re_sub (Str (String x lit)) [] (String x lit ++ s) = s.
Proof.
  intros Hr Hs. unfold re_sub. rewrite sapp_cons.
  rewrite (sub_from_hit _ _ _ _ _ (String.length lit) []).
  - rewrite sub_from_skip. simpl expand. rewrite sapp_empty_l.
    now apply (sub_from_requires c).
  - rewrite <- sapp_cons. apply match_here_Str.
Qed.

(** [re.sub] over a text that starts with known characters where the
    pattern has no match, followed by a text [name] without a dot. *)
Ltac no_match_in_prefix Hdot :=
  unfold re_sub; rewrite ?sapp_cons, ?sapp_empty_l;
  repeat (rewrite sub_from_miss by reflexivity);
  now rewrite (sub_from_requires "."%char) by (reflexivity || exact Hdot).

(** X12: in front of a text without a dot and without an opening angle
    bracket, each of the four known module prefixes is removed, and
    nothing else is. *)
Theorem known_prefixes_are_removed (name : string) :
  free "." name -> free "<" name ->
  clean_annotation_pattern ("typing." ++ name) = name /\
  clean_annotation_pattern ("__main__." ++ name) = name /\
  clean_annotation_pattern ("builtins." ++ name) = name /\
  clean_annotation_pattern ("collections.abc." ++ name) = name.
Proof.
  intros Hdot Hlt.
  assert (H12 : re_sub (Str "typing.") [] ("__main__." ++ name) = "__main__." ++ name)
    by no_match_in_prefix Hdot.
  assert (H13 : re_sub (Str "typing.") [] ("builtins." ++ name) = "builtins." ++ name)
    by no_match_in_prefix Hdot.
  assert (H23 : re_sub (Str "__main__.") [] ("builtins." ++ name) = "builtins." ++ name)
    by no_match_in_prefix Hdot.
  assert (H14 : re_sub (Str "typing.") [] ("collections.abc." ++ name)
                = "collections.abc." ++ name)
    by no_match_in_prefix Hdot.
  assert (H24 : re_sub (Str "__main__.") [] ("collections.abc." ++ name)
                = "collections.abc." ++ name)
    by no_match_in_prefix Hdot.
  assert (H34 : re_sub (Str "builtins.") [] ("collections.abc." ++ name)
                = "collections.abc." ++ name)
    by no_match_in_prefix Hdot.
  unfold clean_annotation_pattern, patterns. cbn [fold_left fst snd].
  rewrite H12, H13, H23, H14, H24, H34.
  rewrite (re_sub_prefix "." "t" "yping." name),
    (re_sub_prefix "." "_" "_main__." name),
    (re_sub_prefix "." "b" "uiltins." name),
    (re_sub_prefix "." "c" "ollections.abc." name)
    by (reflexivity || assumption).
  rewrite !(re_sub_requires "." (Str _) _ name) by (reflexivity || assumption).
  rewrite (re_sub_requires "." _ _ name) by (reflexivity || assumption).
  rewrite (re_sub_requires "<" _ _ name) by (reflexivity || assumption).
  rewrite (re_sub_requires "." _ _ name) by (reflexivity || assumption).
  auto.
Qed.

Lemma known_prefixes_are_removed_witness :
  clean_annotation_pattern ("collections.abc." ++ "Mapping[str, int]")
  = "Mapping[str, int]".
Proof.
  apply (known_prefixes_are_removed "Mapping[str, int]"); reflexivity.
Defined.

Lemma rmatch_Seq (fl : flags) (r1 r2 : regex) (k : cont) (s : string) (g : captures) :
  rmatch fl (Seq r1 r2) k s g = rmatch fl r1 (rmatch fl r2 k) s g.
Proof. reflexivity. Qed.

Lemma rmatch_Group (fl : flags) (n : nat) (r : regex) (k : cont)
    (s : string) (g : captures) :
  rmatch fl (Group n r) k s g
  = rmatch fl r (fun s' g' => k s' ((n, consumed s s') :: g')) s g.
Proof. reflexivity. Qed.

Lemma rmatch_Class (fl : flags) (p : ascii -> bool) (k : cont)
    (x : ascii) (s : string) (g : captures) :
  rmatch fl (Class p) k (String x s) g = if p x then k s g else None.
Proof. reflexivity. Qed.

(** A greedy run of one character class takes all of [w] when the rest
    of the pattern accepts what follows. *)
Lemma star_class_greedy (fl : flags) (p : ascii -> bool) (k : cont)
    (rest : string) (g : captures) (res : string * captures) :
  starts_with p rest = false ->
  k rest g = Some res ->
  forall (w : string) (n : nat),
    all_chars p w = true ->
    String.length (w ++ rest) <= n ->
    star_loop true (rmatch fl (Class p)) k n (w ++ rest) g = Some res.
Proof.
  intros Hrest Hk. induction w as [|x w IH]; intros n Hw Hn.
  - rewrite sapp_empty_l. destruct n as [|n]; [exact Hk|].
    rewrite star_loop_S. cbv zeta.
    destruct rest as [|y rest]; [simpl; now rewrite Hk|].
    simpl in Hrest. rewrite rmatch_Class, Hrest. exact Hk.
  - simpl in Hw. apply andb_true_iff in Hw as [Hx Hw].
    rewrite sapp_cons in *. simpl in Hn.
    destruct n as [|n]; [lia|]. rewrite star_loop_S. cbv zeta.
    rewrite rmatch_Class, Hx.
    destruct (Nat.ltb_spec (String.length (w ++ rest))
                (String.length (String x (w ++ rest)))) as [_|Hlt];
      [|simpl in Hlt; lia].
    now rewrite IH by (auto; lia).
Qed.

Lemma consumed_app (w rest : string) : consumed (w ++ rest) rest = w.
Proof.
  unfold consumed. rewrite length_app.
  replace (String.length w + String.length rest - String.length rest)
    with (String.length w) by lia.
  induction w as [|x w IH]; [now destruct rest|].
  rewrite sapp_cons. simpl. now rewrite IH.
Qed.

Lemma sub_from_all (fl : flags) (r : regex) (repl : list template_item) (a : string) :
  sub_from fl r repl (String.length a) a = sub_from fl r repl 0 "".
Proof. rewrite <- (sub_from_skip fl r repl a ""). now rewrite sapp_empty_r. Qed.

Lemma free_word_dot (w : string) : all_chars is_word w = true -> free "." w.
Proof. now apply free_word. Qed.

(** the rule [<class '(\w+)'>] on the repr of a class with a one-word name *)
Lemma wrapper_match (w : string) :
  w <> "" -> all_chars is_word w = true ->
  match_here no_flags
    (Cat [Str "<class '"; Group 1 (Plus true (Class is_word)); Str "'>"])
    ("<class '" ++ w ++ "'>")
  = Some (String.length ("<class '" ++ w ++ "'>"), [(1, w)]).
Proof.
  intros Hne Hw. destruct w as [|x w]; [now destruct Hne|].
  simpl in Hw. apply andb_true_iff in Hw as [Hx Hw].
  unfold match_here, Cat, Plus. cbn [fold_right].
  rewrite rmatch_Seq, rmatch_Str, rmatch_Seq, rmatch_Group, rmatch_Seq.
  rewrite sapp_cons, rmatch_Class, Hx, rmatch_Star.
  rewrite (star_class_greedy no_flags is_word _ "'>" []
             ("", [(1, consumed (String x (w ++ "'>")) "'>")]))
    by (reflexivity || exact Hw || lia).
  rewrite <- !sapp_cons, consumed_app. change (String.length "") with 0.
  now rewrite Nat.sub_0_r.
Qed.

(** X13: the runtime repr of a class with a one-word name is unwrapped
    to the name, by the pattern cleaner and so by [normalize]. *)
Theorem runtime_repr_is_unwrapped (w : string) :
  w <> "" -> all_chars is_word w = true ->
  clean_annotation_pattern ("<class '" ++ w ++ "'>") = w /\
  normalize ("<class '" ++ w ++ "'>") = Ok w.
Proof.
  intros Hne Hw.
  assert (Hdot : free "." ("<class '" ++ w ++ "'>")).
  { apply free_app. split; [reflexivity|]. apply free_app.
    split; [now apply free_word_dot|reflexivity]. }
  assert (E : clean_annotation_pattern ("<class '" ++ w ++ "'>") = w).
  { unfold clean_annotation_pattern, patterns. cbn [fold_left fst snd].
    rewrite !(re_sub_requires "." (Str _) _ ("<class '" ++ w ++ "'>"))
      by (reflexivity || assumption).
    rewrite (re_sub_requires "." _ _ ("<class '" ++ w ++ "'>"))
      by (reflexivity || assumption).
    assert (E6 : re_sub
               (Cat [Str "<class '"; Group 1 (Plus true (Class is_word)); Str "'>"])
               [TGroup 1] ("<class '" ++ w ++ "'>") = w).
    { unfold re_sub.
      assert (Hm : match_here no_flags
                (Cat [Str "<class '"; Group 1 (Plus true (Class is_word)); Str "'>"])
                (String "<" ("class '" ++ w ++ "'>"))
              = Some (S (String.length ("class '" ++ w ++ "'>")), [(1, w)]))
        by exact (wrapper_match w Hne Hw).
      change ("<class '" ++ w ++ "'>") with (String "<" ("class '" ++ w ++ "'>")).
      rewrite (sub_from_hit _ _ _ _ _ _ _ Hm), sub_from_all.
      simpl. now rewrite !sapp_empty_r. }
    rewrite E6.
    apply re_sub_requires with (c := "."%char);
      [reflexivity|now apply free_word_dot]. }
  split; [exact E|].
  rewrite <- E at 2.
  apply (facade_fallback py_parse _ SyntaxError).
  rewrite sapp_cons. reflexivity.
Qed.

Lemma runtime_repr_is_unwrapped_witness :
  clean_annotation_pattern ("<class '" ++ "NoneType" ++ "'>") = "NoneType".
Proof.
  apply (runtime_repr_is_unwrapped "NoneType"); [discriminate|reflexivity].
Defined.

(** ** One [:param] line *)

Lemma eqb_newline (c : ascii) : Ascii.eqb newline c = is_newline c.
Proof.
  unfold is_newline, code. destruct (Ascii.eqb_spec newline c) as [<-|Hc].
  - reflexivity.
  - symmetry. apply Nat.eqb_neq. intros H. apply Hc.
    now rewrite <- (ascii_nat_embedding c), H.
Qed.

Lemma rmatch_Lit (fl : flags) (c : ascii) (k : cont)
    (x : ascii) (s : string) (g : captures) :
  rmatch fl (Lit c) k (String x s) g = if Ascii.eqb c x then k s g else None.
Proof. reflexivity. Qed.

Lemma rmatch_Alt (fl : flags) (r1 r2 : regex) (k : cont) (s : string) (g : captures) :
  rmatch fl (Alt r1 r2) k s g
  = match rmatch fl r1 k s g with Some x => Some x | None => rmatch fl r2 k s g end.
Proof. reflexivity. Qed.

Lemma rmatch_Lookahead (fl : flags) (r : regex) (k : cont) (s : string) (g : captures) :
  rmatch fl (Lookahead r) k s g
  = match rmatch fl r (fun s' g' => Some (s', g')) s g with
    | Some (_, g') => k s g'
    | None => None
    end.
Proof. reflexivity. Qed.

Lemma rmatch_Dot (fl : flags) (k : cont) (x : ascii) (s : string) (g : captures) :
  rmatch fl Dot k (String x s) g
  = if DOTALL fl || not_newline x then k s g else None.
Proof. reflexivity. Qed.

Lemma rmatch_spaces (fl : flags) (k : cont) (s : string) (g : captures) :
  rmatch fl spaces k s g
  = star_loop true (rmatch fl (Class is_space)) k (String.length s) s g.
Proof. reflexivity. Qed.

(** A greedy run of a character class takes nothing where the text
    starts with another character. *)
Lemma star_class_stop (fl : flags) (p : ascii -> bool) (k : cont)
    (rest : string) (g : captures) (n : nat) :
  starts_with p rest = false ->
  star_loop true (rmatch fl (Class p)) k n rest g = k rest g.
Proof.
  intros H. destruct n as [|n]; [reflexivity|].
  rewrite star_loop_S. cbv zeta. destruct rest as [|y rest].
  - simpl. now destruct (k "" g).
  - simpl in H. rewrite rmatch_Class, H. reflexivity.
Qed.

(** A lazy run of [.] under DOTALL stops only where the rest of the
    pattern accepts: here at the end of a text without a line break,
    when the rest of the pattern rejects every text that starts with
    another character. *)
Lemma star_dot_lazy (fl : flags) (k : cont) (g : captures)
    (res : string * captures) :
  DOTALL fl = true ->
  (forall c s, is_newline c = false -> k (String c s) g = None) ->
  k "" g = Some res ->
  forall (d : string) (n : nat),
    free newline d -> String.length d <= n ->
    star_loop false (rmatch fl Dot) k n d g = Some res.
Proof.
  intros Hfl Hfail Hend. induction d as [|x d IH]; intros n Hd Hn.
  - destruct n as [|n]; [exact Hend|]. rewrite star_loop_S. cbv zeta.
    now rewrite Hend.
  - apply free_cons in Hd as [Hx Hd]. rewrite eqb_newline in Hx.
    simpl in Hn. destruct n as [|n]; [lia|]. rewrite star_loop_S. cbv zeta.
    rewrite (Hfail x d Hx), rmatch_Dot, Hfl. cbn [orb].
    destruct (Nat.ltb_spec (String.length d) (String.length (String x d)))
      as [_|Hlt]; [|simpl in Hlt; lia].
    apply IH; [exact Hd|lia].
Qed.

Lemma consumed_all (w : string) : consumed w "" = w.
Proof. pose proof (consumed_app w "") as H. now rewrite sapp_empty_r in H. Qed.

Lemma finditer_hit (fl : flags) (r : regex) (x : ascii) (s : string)
    (n : nat) (g : captures) :
  match_here fl r (String x s) = Some (S n, g) ->
  finditer_from fl r 0 (String x s) = g :: finditer_from fl r n s.
Proof. intros H. simpl. now rewrite H. Qed.

Lemma finditer_skip (fl : flags) (r : regex) (a rest : string) :
  finditer_from fl r (String.length a) (a ++ rest) = finditer_from fl r 0 rest.
Proof.
  induction a as [|x a IH]; [reflexivity|]. rewrite sapp_cons. exact IH.
Qed.

Lemma finditer_all (fl : flags) (r : regex) (a : string) :
  finditer_from fl r (String.length a) a = finditer_from fl r 0 "".
Proof. rewrite <- (finditer_skip fl r a ""). now rewrite sapp_empty_r. Qed.

Lemma search_requires (c : ascii) (fl : flags) (r : regex) (s : string) :
  requires c r = true -> free c s -> re_search fl r s = None.
Proof.
  intros Hr. induction s as [|x s IH]; intros Hs; simpl;
    rewrite (match_here_requires c fl r _ Hr Hs); [reflexivity|].
  apply free_cons in Hs as [_ Hs]. now apply IH.
Qed.

Lemma is_word_not_space (c : ascii) : is_word c = true -> is_space c = false.
Proof.
  unfold is_word, ident_char, is_space, is_lower, is_upper, is_digit,
    is_underscore, in_range.
  change (code "a") with 97. change (code "z") with 122.
  change (code "A") with 65. change (code "Z") with 90.
  change (code "0") with 48. change (code "9") with 57.
  generalize (code c). intros n H. bool_to_prop. lia.
Qed.

(** the lookahead that ends a description (a line break and a colon, a
    blank line, or the end of a line) fails in front of any character
    but a line break *)
Lemma description_goes_on (k : cont) (c : ascii) (s : string) (g : captures) :
  is_newline c = false ->
  rmatch multiline_dotall
    (Seq (Lookahead (Alt (Cat [Lit newline; spaces; Lit ":"])
                    (Alt (Cat [Lit newline; spaces; Lit newline]) Dollar))) Eps)
    k (String c s) g = None.
Proof.
  intros Hc. unfold Cat. cbn [fold_right].
  rewrite rmatch_Seq, rmatch_Lookahead, !rmatch_Alt, !rmatch_Seq, !rmatch_Lit.
  rewrite eqb_newline, Hc. cbn [rmatch at_dollar]. now rewrite Hc.
Qed.

Lemma param_line_rmatch (name desc : string) :
  name <> "" -> all_chars is_word name = true ->
  desc <> "" -> starts_with is_space desc = false -> free newline desc ->
  rmatch multiline_dotall google_pattern (fun s' g => Some (s', g))
    (":param " ++ name ++ ": " ++ desc) []
  = Some ("", [(2, desc); (1, name)]).
Proof.
  intros Hn Hw Hd Hs Hf.
  destruct name as [|x name]; [now destruct Hn|].
  destruct desc as [|c d]; [now destruct Hd|].
  simpl in Hw. apply andb_true_iff in Hw as [Hx Hw].
  simpl in Hs. apply free_cons in Hf as [Hc Hf]. rewrite eqb_newline in Hc.
  unfold google_pattern, Cat, Plus. cbn [fold_right].
  change (":param " ++ String x name ++ ": " ++ String c d)
    with (":param" ++ String " " (String x (name ++ ": " ++ String c d))).
  rewrite rmatch_Seq, rmatch_Str.
  rewrite rmatch_Seq, rmatch_Seq, rmatch_Class.
  change (is_space " ") with true. cbv iota.
  rewrite rmatch_Star, star_class_stop by (simpl; now apply is_word_not_space).
  rewrite rmatch_Seq, rmatch_Group, rmatch_Seq, rmatch_Class, Hx, rmatch_Star.
  apply star_class_greedy; [reflexivity| |exact Hw|lia].
  cbv beta.
  change (String x (name ++ ": " ++ String c d))
    with (String x name ++ ": " ++ String c d).
  rewrite consumed_app.
  change (": " ++ String c d) with (String ":" (" " ++ String c d)).
  rewrite rmatch_Seq, rmatch_Lit. change (Ascii.eqb ":" ":") with true. cbv iota.
  rewrite rmatch_Seq, rmatch_spaces.
  apply star_class_greedy; [exact Hs| |reflexivity|lia].
  rewrite rmatch_Seq, rmatch_Group, rmatch_Seq, rmatch_Dot.
  change (DOTALL multiline_dotall) with true. cbn [orb]. rewrite rmatch_Star.
  apply star_dot_lazy; [reflexivity| | |exact Hf|lia].
  - intros c' s' Hc'. apply description_goes_on. exact Hc'.
  - cbv beta. rewrite consumed_all. reflexivity.
Qed.

Lemma param_line_match (name desc : string) :
  name <> "" -> all_chars is_word name = true ->
  desc <> "" -> starts_with is_space desc = false -> free newline desc ->
  match_here multiline_dotall google_pattern
    (String ":" ("param " ++ name ++ ": " ++ desc))
  = Some (S (String.length ("param " ++ name ++ ": " ++ desc)),
          [(2, desc); (1, name)]).
Proof.
  intros Hn Hw Hd Hs Hf. unfold match_here.
  change (String ":" ("param " ++ name ++ ": " ++ desc))
    with (":param " ++ name ++ ": " ++ desc).
  now rewrite (param_line_rmatch name desc Hn Hw Hd Hs Hf).
Qed.

(** X14: a docstring that is one [:param name: description] line, the
    description starting with a visible character and holding no line
    break, gives the mapping of the name to the stripped description. *)
Theorem one_param_line (name desc : string) :
  name <> "" -> all_chars is_word name = true ->
  desc <> "" -> starts_with is_space desc = false -> free newline desc ->
  _parse_docstring_manual (":param " ++ name ++ ": " ++ desc)
  = {[ name := strip desc ]}.
Proof.
  intros Hn Hw Hd Hs Hf.
  assert (Hfree : free newline (":param " ++ name ++ ": " ++ desc)).
  { apply free_app. split; [reflexivity|]. apply free_app.
    split; [now apply free_word|]. apply free_app. now split. }
  unfold _parse_docstring_manual. cbv zeta.
  rewrite sphinx_after_google. unfold numpy_pass.
  rewrite (search_requires newline) by (reflexivity || exact Hfree).
  unfold google_pass, re_finditer.
  change (":param " ++ name ++ ": " ++ desc)
    with (String ":" ("param " ++ name ++ ": " ++ desc)).
  rewrite (finditer_hit _ _ _ _ _ _ (param_line_match name desc Hn Hw Hd Hs Hf)).
  rewrite finditer_all. reflexivity.
Qed.

Lemma one_param_line_witness :
  _parse_docstring_manual (":param " ++ "count" ++ ": " ++ "how many items  ")
  = {[ "count" := "how many items" ]}.
Proof.
  apply (one_param_line "count" "how many items  ");
    [discriminate|reflexivity|discriminate|reflexivity|reflexivity].
Defined.

(** ** The NumPy section *)











